(** * Needleman-Wunsch global alignment: a shallow embedding of [main.cpp]

    The development follows the C++ source function by function:
    [Scoring], [default_scoring], [Alignment] with its member
    [calc_score], [generateAlignmentMatrix] and [alignment_algorithm].

    Modelling choices.
    - [int] is a 32-bit two's-complement integer.  Values are kept in [Z]
      and every addition performed by the program goes through [int_add],
      which wraps around.
    - [std::string] is a [list ascii]; [s[i]] is [char_at s i].
    - [matrix<int>] is a [list (list Z)]; [mat[i][j]] is [mat_get], the
      assignment [mat[i][j] = v] is [mat_set].
    - Loop counters and string sizes are natural numbers.  The counting
      [for] loops are folds over their index range ([for_range]); the
      traceback [while] loop, whose termination depends on the data, is
      run with fuel ([traceback_loop]) and shown to need at most
      [size(seq1) + size(seq2)] iterations.
    - Signed overflow is undefined in C++.  Wrap-around is what a running
      sum yields on the usual targets, but a compiler may rearrange a
      maximum of sums, so the value of a filled cell is stated only where
      no sum overflows ([no_overflow]).
    - Reading a container outside its bounds yields whatever lies in
      memory.  [char_at] and [mat_get] fix one such value; the program is
      given a second time over arbitrary read operations (section
      [Reads]) to show that it never depends on such a value. *)

From Stdlib Require Import ZArith Ascii String Lia.
From stdpp Require Import base list strings.

Local Open Scope Z_scope.

(** ** Machine integers *)

Definition INT_MIN : Z := - 2 ^ 31.
Definition INT_MAX : Z := 2 ^ 31 - 1.

Definition int_range (z : Z) : Prop := INT_MIN <= z <= INT_MAX.

Definition int_wrap (z : Z) : Z := (z + 2 ^ 31) mod 2 ^ 32 - 2 ^ 31.

(** [a + b] on [int]. *)
Definition int_add (a b : Z) : Z := int_wrap (a + b).

(** ** Strings and matrices *)

Definition NUL : ascii := "000"%char.
Definition GAP : ascii := "-"%char.

(** [s[i]]; reading at [s.size()] yields the terminating NUL. *)
Definition char_at (s : list ascii) (i : nat) : ascii := default NUL (s !! i).

Abbreviation matrix := (list (list Z)).

Definition mat_get (mat : matrix) (i j : nat) : Z := (mat !!! i) !!! j.

Definition mat_set (mat : matrix) (i j : nat) (v : Z) : matrix :=
  alter (fun row => <[j := v]> row) i mat.

(** [for (k = lo; k < lo + count; ++k) s = body k s]. *)
Definition for_range {S : Type} (lo count : nat) (body : nat -> S -> S) (s : S) : S :=
  fold_left (fun acc k => body k acc) (seq lo count) s.

(** ** The program *)

Record Scoring : Type := mkScoring {
  match_ : Z;
  mismatch : Z;
  gap : Z
}.

Definition default_scoring : Scoring :=
  {| match_ := 1; mismatch := -1; gap := 0 |}.

Record Alignment : Type := mkAlignment {
  seq1 : list ascii;
  seq2 : list ascii;
  score : matrix
}.

(** One iteration of the loop body of [Alignment::calc_score]. *)
Definition calc_score_body (al : Alignment) (scr : Scoring) (i : nat) (acc : Z) : Z :=
  if Ascii.eqb (char_at (seq1 al) i) (char_at (seq2 al) i) then
    int_add acc (match_ scr)
  else if Ascii.eqb (char_at (seq1 al) i) GAP || Ascii.eqb (char_at (seq2 al) i) GAP then
    int_add acc (gap scr)
  else
    int_add acc (mismatch scr).

Definition calc_score (al : Alignment) (scr : Scoring) : Z :=
  for_range 0 (length (seq1 al)) (calc_score_body al scr) 0.

Definition generateAlignmentMatrix (m n : nat) (scr : Scoring) : matrix :=
  let mat := replicate (m + 1) (replicate (n + 1) 0) in
  let mat :=
    for_range 1 m
      (fun i mat => mat_set mat i 0 (int_add (mat_get mat (i - 1) 0) (gap scr))) mat in
  let mat :=
    for_range 1 n
      (fun j mat => mat_set mat 0 j (int_add (mat_get mat 0 (j - 1)) (gap scr))) mat in
  mat.

(** The body of the inner fill loop: the cell [(i, j)]. *)
Definition fill_cell (A B : list ascii) (scr : Scoring) (i j : nat) (mat : matrix) : matrix :=
  let match_v :=
    int_add (mat_get mat (i - 1) (j - 1))
      (if Ascii.eqb (char_at A (i - 1)) (char_at B (j - 1))
       then match_ scr else mismatch scr) in
  let del := int_add (mat_get mat (i - 1) j) (gap scr) in
  let ins := int_add (mat_get mat i (j - 1)) (gap scr) in
  mat_set mat i j (Z.max match_v (Z.max del ins)).

Definition fill_matrix (A B : list ascii) (scr : Scoring) (mat : matrix) : matrix :=
  for_range 1 (length A)
    (fun i mat => for_range 1 (length B) (fun j mat => fill_cell A B scr i j mat) mat) mat.

(** The traceback cursor: [i], [j] and the two strings built so far. *)
Record cursor : Type := mkCursor {
  cur_i : nat;
  cur_j : nat;
  al1 : list ascii;
  al2 : list ascii
}.

(** Which arm of the [if / else if / else if] chain of the traceback is
    entered at [(i, j)]; [NoMove] is the fall-through past the last arm. *)
Inductive move : Type := Diagonal | Left | Up | NoMove.

Definition traceback_move (mat : matrix) (A B : list ascii) (i j : nat) : move :=
  let diag := mat_get mat (i - 1) (j - 1) in
  let up := mat_get mat i (j - 1) in
  let left := mat_get mat (i - 1) j in
  if Ascii.eqb (char_at A (i - 1)) (char_at B (j - 1))
     || ((diag >=? up) && (diag >=? left)) then Diagonal
  else if (left >=? up) && (left >=? diag) then Left
  else if (up >=? left) && (up >=? diag) then Up
  else NoMove.

(** One iteration of the first [while] loop. *)
Definition traceback_step (mat : matrix) (A B : list ascii) (c : cursor) : cursor :=
  let i := cur_i c in
  let j := cur_j c in
  match traceback_move mat A B i j with
  | Diagonal =>
      mkCursor (i - 1) (j - 1) (al1 c ++ [char_at A (i - 1)]) (al2 c ++ [char_at B (j - 1)])
  | Left =>
      mkCursor (i - 1) j (al1 c ++ [char_at A (i - 1)]) (al2 c ++ [GAP])
  | Up =>
      mkCursor i (j - 1) (al1 c ++ [GAP]) (al2 c ++ [char_at B (j - 1)])
  | NoMove => c
  end.

(** [while (i > 0 && j > 0)], with a bound on the number of iterations;
    [None] means the bound was reached with the loop still running. *)
Fixpoint traceback_loop (fuel : nat) (mat : matrix) (A B : list ascii) (c : cursor)
  : option cursor :=
  if (0 <? cur_i c)%nat && (0 <? cur_j c)%nat then
    match fuel with
    | O => None
    | S fuel' => traceback_loop fuel' mat A B (traceback_step mat A B c)
    end
  else Some c.

(** [while (i > 0)]: copy what is left of [seq1]. *)
Fixpoint copy_remaining1 (A : list ascii) (c : cursor) (i : nat) : cursor :=
  match i with
  | O => c
  | S i' =>
      copy_remaining1 A (mkCursor i' (cur_j c) (al1 c ++ [char_at A i']) (al2 c ++ [GAP])) i'
  end.

(** [while (j > 0)]: copy what is left of [seq2]. *)
Fixpoint copy_remaining2 (B : list ascii) (c : cursor) (j : nat) : cursor :=
  match j with
  | O => c
  | S j' =>
      copy_remaining2 B (mkCursor (cur_i c) j' (al1 c ++ [GAP]) (al2 c ++ [char_at B j'])) j'
  end.

Definition alignment_algorithm_fuel (fuel : nat) (A B : list ascii) (scr : Scoring)
  : option Alignment :=
  let mat := generateAlignmentMatrix (length A) (length B) scr in
  let mat := fill_matrix A B scr mat in
  match traceback_loop fuel mat A B (mkCursor (length A) (length B) [] []) with
  | None => None
  | Some c =>
      let c := copy_remaining1 A c (cur_i c) in
      let c := copy_remaining2 B c (cur_j c) in
      Some (mkAlignment (rev (al1 c)) (rev (al2 c)) mat)
  end.

(** The traceback visits at most [size(seq1) + size(seq2)] cells (see
    [traceback_loop_terminates]), so this much fuel is always enough. *)
Definition alignment_algorithm (A B : list ascii) (scr : Scoring) : option Alignment :=
  alignment_algorithm_fuel (length A + length B) A B scr.

(** String literals as [std::string] values. *)
Definition str (s : string) : list ascii := list_ascii_of_string s.

(** ** Specification-side notions *)

(** A matrix of [rows] rows, each of [cols] entries. *)
Definition mat_dims (mat : matrix) (rows cols : nat) : Prop :=
  length mat = rows /\ forall i, (i < rows)%nat -> length (mat !!! i) = cols.

(** The largest absolute value among the three scores. *)
Definition score_bound (scr : Scoring) : Z :=
  Z.max (Z.abs (match_ scr)) (Z.max (Z.abs (mismatch scr)) (Z.abs (gap scr))).

(** No sum formed while filling the matrix can leave the range of [int]. *)
Definition no_overflow (A B : list ascii) (scr : Scoring) : Prop :=
  Z.of_nat (length A + length B) * score_bound scr <= INT_MAX.

Section Recurrence.
Variables (A B : list ascii) (scr : Scoring).

(** Score of pairing [A[i]] with [B[j]] (0-based). *)
Definition subst_score (i j : nat) : Z :=
  if Ascii.eqb (char_at A i) (char_at B j) then match_ scr else mismatch scr.

Fixpoint nw_row0 (j : nat) : Z :=
  match j with
  | O => 0
  | S j' => nw_row0 j' + gap scr
  end.

(** The recurrence of the specification, over unbounded integers:
    [nw_score i j] for the prefixes of lengths [i] and [j]. *)
Fixpoint nw_score (i : nat) : nat -> Z :=
  match i with
  | O => nw_row0
  | S i' =>
      fix row (j : nat) : Z :=
        match j with
        | O => nw_score i' O + gap scr
        | S j' =>
            Z.max (nw_score i' j' + subst_score i' j')
              (Z.max (nw_score i' (S j') + gap scr) (row j' + gap scr))
        end
  end.

(** The cells computed so far when the fill loops are about to write
    [(S k, S l)]: rows [0..k], row [S k] up to column [l], column [0]. *)
Definition filled (k l : nat) (mat : matrix) : Prop :=
  forall i j, (i <= length A)%nat -> (j <= length B)%nat ->
    (i <= k \/ (i = S k /\ j <= l) \/ j = O)%nat ->
    mat_get mat i j = nw_score i j.
End Recurrence.

(** A global alignment as a list of columns. *)
Inductive column : Type :=
  | Pair (a b : ascii)   (* a symbol of each sequence *)
  | Delete (a : ascii)   (* a symbol of the first against a gap *)
  | Insert (b : ascii).  (* a gap against a symbol of the second *)

Definition top (cols : list column) : list ascii :=
  flat_map (fun c => match c with Pair a _ => [a] | Delete a => [a] | Insert _ => [] end) cols.

Definition bottom (cols : list column) : list ascii :=
  flat_map (fun c => match c with Pair _ b => [b] | Delete _ => [] | Insert b => [b] end) cols.

Definition aligns (cols : list column) (X Y : list ascii) : Prop :=
  top cols = X /\ bottom cols = Y.

Definition column_score (scr : Scoring) (c : column) : Z :=
  match c with
  | Pair a b => if Ascii.eqb a b then match_ scr else mismatch scr
  | Delete _ => gap scr
  | Insert _ => gap scr
  end.

Definition alignment_score (scr : Scoring) (cols : list column) : Z :=
  foldr (fun c acc => column_score scr c + acc) 0 cols.

(** [v] is the best score over all global alignments of [X] and [Y]. *)
Definition is_optimal_score (scr : Scoring) (X Y : list ascii) (v : Z) : Prop :=
  (exists cols, aligns cols X Y /\ alignment_score scr cols = v) /\
  (forall cols, aligns cols X Y -> alignment_score scr cols <= v).

(** The two output strings that display an alignment. *)
Definition render_top (cols : list column) : list ascii :=
  map (fun c => match c with Pair a _ => a | Delete a => a | Insert _ => GAP end) cols.

Definition render_bottom (cols : list column) : list ascii :=
  map (fun c => match c with Pair _ b => b | Delete _ => GAP | Insert b => b end) cols.

Definition remove_gaps (s : list ascii) : list ascii :=
  filter (fun c => c <> GAP) s.

(** The classification of one position of two aligned strings. *)
Definition position_score (scr : Scoring) (a b : ascii) : Z :=
  if decide (a = b) then match_ scr
  else if decide (a = GAP \/ b = GAP) then gap scr
  else mismatch scr.

Fixpoint sum_positions (scr : Scoring) (s1 s2 : list ascii) : Z :=
  match s1, s2 with
  | a :: s1', b :: s2' => position_score scr a b + sum_positions scr s1' s2'
  | _, _ => 0
  end.

(** What the traceback has built when its cursor is at [(i, j)]: the
    reversed accumulators display an alignment of the suffixes
    [A[i..]] and [B[j..]]. *)
Definition renders (A B : list ascii) (i j : nat) (s1 s2 : list ascii) : Prop :=
  exists cols, aligns cols (drop i A) (drop j B) /\
               rev s1 = render_top cols /\ rev s2 = render_bottom cols.

(** ** Further notions used by the additional properties *)

Section IntRecurrence.
Variables (A B : list ascii) (scr : Scoring).

(** The recurrence as the loops evaluate it, every sum being an [int]
    addition: the value written to cell [(i, j)]. *)
Fixpoint int_score (i : nat) : nat -> Z :=
  match i with
  | O => fun j => int_wrap (Z.of_nat j * gap scr)
  | S i' =>
      fix row (j : nat) : Z :=
        match j with
        | O => int_wrap (Z.of_nat (S i') * gap scr)
        | S j' =>
            Z.max (int_add (int_score i' j') (subst_score A B scr i' j'))
              (Z.max (int_add (int_score i' (S j')) (gap scr))
                     (int_add (row j') (gap scr)))
        end
  end.

(** The analogue of [filled] for [int_score]. *)
Definition filled_int (k l : nat) (mat : matrix) : Prop :=
  forall i j, (i <= length A)%nat -> (j <= length B)%nat ->
    (i <= k \/ (i = S k /\ j <= l) \/ j = O)%nat ->
    mat_get mat i j = int_score i j.
End IntRecurrence.

(** The cursors at which the guard of the traceback loop is evaluated:
    the initial one, and the one left by each executed iteration. *)
Inductive traceback_visits (mat : matrix) (A B : list ascii) : cursor -> Prop :=
  | visits_start :
      traceback_visits mat A B (mkCursor (length A) (length B) [] [])
  | visits_step (c : cursor) :
      traceback_visits mat A B c ->
      (0 < cur_i c)%nat -> (0 < cur_j c)%nat ->
      traceback_visits mat A B (traceback_step mat A B c).

(** ** The program over arbitrary read operations *)

Section Reads.
Variables (read_char : list ascii -> nat -> ascii) (read_cell : matrix -> nat -> nat -> Z).

(** [generateAlignmentMatrix], each [mat[i][j]] read being [read_cell]. *)
Definition generateAlignmentMatrix_rd (m n : nat) (scr : Scoring) : matrix :=
  let mat := replicate (m + 1) (replicate (n + 1) 0) in
  let mat :=
    for_range 1 m
      (fun i mat => mat_set mat i 0 (int_add (read_cell mat (i - 1)%nat 0%nat) (gap scr))) mat in
  let mat :=
    for_range 1 n
      (fun j mat => mat_set mat 0 j (int_add (read_cell mat 0%nat (j - 1)%nat) (gap scr))) mat in
  mat.

Definition fill_cell_rd (A B : list ascii) (scr : Scoring) (i j : nat) (mat : matrix) : matrix :=
  let match_v :=
    int_add (read_cell mat (i - 1)%nat (j - 1)%nat)
      (if Ascii.eqb (read_char A (i - 1)%nat) (read_char B (j - 1)%nat)
       then match_ scr else mismatch scr) in
  let del := int_add (read_cell mat (i - 1)%nat j) (gap scr) in
  let ins := int_add (read_cell mat i (j - 1)%nat) (gap scr) in
  mat_set mat i j (Z.max match_v (Z.max del ins)).

Definition fill_matrix_rd (A B : list ascii) (scr : Scoring) (mat : matrix) : matrix :=
  for_range 1 (length A)
    (fun i mat => for_range 1 (length B) (fun j mat => fill_cell_rd A B scr i j mat) mat) mat.

Definition traceback_move_rd (mat : matrix) (A B : list ascii) (i j : nat) : move :=
  let diag := read_cell mat (i - 1)%nat (j - 1)%nat in
  let up := read_cell mat i (j - 1)%nat in
  let left := read_cell mat (i - 1)%nat j in
  if Ascii.eqb (read_char A (i - 1)%nat) (read_char B (j - 1)%nat)
     || ((diag >=? up) && (diag >=? left)) then Diagonal
  else if (left >=? up) && (left >=? diag) then Left
  else if (up >=? left) && (up >=? diag) then Up
  else NoMove.

Definition traceback_step_rd (mat : matrix) (A B : list ascii) (c : cursor) : cursor :=
  let i := cur_i c in
  let j := cur_j c in
  match traceback_move_rd mat A B i j with
  | Diagonal =>
      mkCursor (i - 1) (j - 1)
        (al1 c ++ [read_char A (i - 1)%nat]) (al2 c ++ [read_char B (j - 1)%nat])
  | Left =>
      mkCursor (i - 1) j (al1 c ++ [read_char A (i - 1)%nat]) (al2 c ++ [GAP])
  | Up =>
      mkCursor i (j - 1) (al1 c ++ [GAP]) (al2 c ++ [read_char B (j - 1)%nat])
  | NoMove => c
  end.

Fixpoint traceback_loop_rd (fuel : nat) (mat : matrix) (A B : list ascii) (c : cursor)
  : option cursor :=
  if (0 <? cur_i c)%nat && (0 <? cur_j c)%nat then
    match fuel with
    | O => None
    | S fuel' => traceback_loop_rd fuel' mat A B (traceback_step_rd mat A B c)
    end
  else Some c.

Fixpoint copy_remaining1_rd (A : list ascii) (c : cursor) (i : nat) : cursor :=
  match i with
  | O => c
  | S i' =>
      copy_remaining1_rd A
        (mkCursor i' (cur_j c) (al1 c ++ [read_char A i']) (al2 c ++ [GAP])) i'
  end.

Fixpoint copy_remaining2_rd (B : list ascii) (c : cursor) (j : nat) : cursor :=
  match j with
  | O => c
  | S j' =>
      copy_remaining2_rd B
        (mkCursor (cur_i c) j' (al1 c ++ [GAP]) (al2 c ++ [read_char B j'])) j'
  end.

(** [alignment_algorithm], every string and matrix read being one of the
    two given operations. *)
Definition alignment_algorithm_rd (fuel : nat) (A B : list ascii) (scr : Scoring)
  : option Alignment :=
  let mat := generateAlignmentMatrix_rd (length A) (length B) scr in
  let mat := fill_matrix_rd A B scr mat in
  match traceback_loop_rd fuel mat A B (mkCursor (length A) (length B) [] []) with
  | None => None
  | Some c =>
      let c := copy_remaining1_rd A c (cur_i c) in
      let c := copy_remaining2_rd B c (cur_j c) in
      Some (mkAlignment (rev (al1 c)) (rev (al2 c)) mat)
  end.
End Reads.

(** Read operations that return the stored element wherever the index is
    within bounds, and anything at all elsewhere. *)
Definition reads_in_range
    (read_char : list ascii -> nat -> ascii) (read_cell : matrix -> nat -> nat -> Z) : Prop :=
  (forall (s : list ascii) (i : nat) (x : ascii), s !! i = Some x -> read_char s i = x) /\
  (forall (mat : matrix) (i j : nat) (row : list Z) (v : Z),
     mat !! i = Some row -> row !! j = Some v -> read_cell mat i j = v).


(** * Properties *)

(** ** Counting loops *)

Lemma for_range_S {S : Type} (lo count : nat) (body : nat -> S -> S) (s : S) :
  for_range lo (Datatypes.S count) body s = body (lo + count)%nat (for_range lo count body s).
Proof.
  unfold for_range. rewrite seq_S, fold_left_app. reflexivity.
Qed.

(** Invariant rule: [P k] holds of the state after [k] iterations. *)
Lemma for_range_ind {S : Type} (P : nat -> S -> Prop) (lo count : nat)
    (body : nat -> S -> S) (s : S) :
  P O s ->
  (forall k acc, (k < count)%nat -> P k acc -> P (Datatypes.S k) (body (lo + k)%nat acc)) ->
  P count (for_range lo count body s).
Proof.
  intros Hinit Hstep. induction count as [|count IH].
  - exact Hinit.
  - rewrite for_range_S. apply Hstep; [lia|]. apply IH.
    intros k acc Hk. apply Hstep. lia.
Qed.

(** ** Machine integers *)

Lemma int_wrap_range (z : Z) : int_range (int_wrap z).
Proof.
  unfold int_range, int_wrap, INT_MIN, INT_MAX.
  pose proof (Z.mod_pos_bound (z + 2 ^ 31) (2 ^ 32) ltac:(lia)). lia.
Qed.

Lemma int_wrap_id (z : Z) : int_range z -> int_wrap z = z.
Proof.
  unfold int_range, int_wrap, INT_MIN, INT_MAX. intros H.
  rewrite Z.mod_small; lia.
Qed.

Lemma int_wrap_add_l (a b : Z) : int_wrap (int_wrap a + b) = int_wrap (a + b).
Proof.
  unfold int_wrap.
  replace ((a + 2 ^ 31) mod 2 ^ 32 - 2 ^ 31 + b + 2 ^ 31)
    with ((a + 2 ^ 31) mod 2 ^ 32 + b) by lia.
  rewrite Zplus_mod_idemp_l. f_equal. f_equal. lia.
Qed.

Lemma int_add_exact (a b : Z) : int_range (a + b) -> int_add a b = a + b.
Proof. apply int_wrap_id. Qed.

(** ** Matrices *)

Lemma mat_dims_replicate (rows cols : nat) (v : Z) :
  mat_dims (replicate rows (replicate cols v)) rows cols.
Proof.
  split; [apply length_replicate|].
  intros i Hi. rewrite lookup_total_replicate_2 by exact Hi. apply length_replicate.
Qed.

Lemma mat_get_replicate (rows cols i j : nat) (v : Z) :
  (i < rows)%nat -> (j < cols)%nat ->
  mat_get (replicate rows (replicate cols v)) i j = v.
Proof.
  intros Hi Hj. unfold mat_get.
  rewrite lookup_total_replicate_2 by exact Hi.
  apply lookup_total_replicate_2. exact Hj.
Qed.

Lemma mat_dims_set (mat : matrix) (rows cols i j : nat) (v : Z) :
  mat_dims mat rows cols -> mat_dims (mat_set mat i j v) rows cols.
Proof.
  intros [Hr Hc]. unfold mat_set. split.
  - rewrite length_alter. exact Hr.
  - intros k Hk. destruct (decide (i = k)) as [->|Hne].
    + rewrite list_lookup_total_alter_eq by lia. rewrite length_insert. auto.
    + rewrite list_lookup_total_alter_ne by exact Hne. auto.
Qed.

Lemma mat_get_set_eq (mat : matrix) (rows cols i j : nat) (v : Z) :
  mat_dims mat rows cols -> (i < rows)%nat -> (j < cols)%nat ->
  mat_get (mat_set mat i j v) i j = v.
Proof.
  intros [Hr Hc] Hi Hj. unfold mat_get, mat_set.
  rewrite list_lookup_total_alter_eq by lia.
  apply list_lookup_total_insert_eq. rewrite Hc by exact Hi. exact Hj.
Qed.

Lemma mat_get_set_ne (mat : matrix) (i j i' j' : nat) (v : Z) :
  i <> i' \/ j <> j' ->
  mat_get (mat_set mat i j v) i' j' = mat_get mat i' j'.
Proof.
  intros Hne. unfold mat_get, mat_set.
  destruct (decide (i = i')) as [->|Hi].
  - destruct (decide (i' < length mat)%nat) as [Hlt|Hge].
    + rewrite list_lookup_total_alter_eq by exact Hlt.
      apply list_lookup_total_insert_ne. destruct Hne; congruence.
    + rewrite list_lookup_total_alter. rewrite decide_False by lia. reflexivity.
  - rewrite list_lookup_total_alter_ne by exact Hi. reflexivity.
Qed.

(** ** The boundary row and column *)

Lemma int_add_wrap_mul (k : nat) (g : Z) :
  int_add (int_wrap (Z.of_nat k * g)) g = int_wrap (Z.of_nat (S k) * g).
Proof.
  unfold int_add. rewrite int_wrap_add_l. f_equal. lia.
Qed.

(** What [generateAlignmentMatrix] establishes, stated on the wrapped
    products that the repeated [int] additions compute. *)
Lemma generateAlignmentMatrix_boundary (m n : nat) (scr : Scoring) :
  let mat := generateAlignmentMatrix m n scr in
  mat_dims mat (m + 1) (n + 1) /\
  (forall i, (i <= m)%nat -> mat_get mat i 0 = int_wrap (Z.of_nat i * gap scr)) /\
  (forall j, (j <= n)%nat -> mat_get mat 0 j = int_wrap (Z.of_nat j * gap scr)).
Proof.
  unfold generateAlignmentMatrix.
  set (mat0 := replicate (m + 1) (replicate (n + 1) 0)).
  set (body1 := fun (i : nat) (mat : matrix) =>
                  mat_set mat i 0 (int_add (mat_get mat (i - 1) 0) (gap scr))).
  set (body2 := fun (j : nat) (mat : matrix) =>
                  mat_set mat 0 j (int_add (mat_get mat 0 (j - 1)) (gap scr))).
  assert (H1 : forall k, (k <= m)%nat ->
            let mat := for_range 1 k body1 mat0 in
            mat_dims mat (m + 1) (n + 1) /\
            (forall i, (i <= k)%nat -> mat_get mat i 0 = int_wrap (Z.of_nat i * gap scr)) /\
            (forall i j, (i <= m)%nat -> (j <= n)%nat -> (k < i \/ 0 < j)%nat ->
                         mat_get mat i j = 0)).
  { intros k Hk. simpl.
    apply (for_range_ind (fun k mat => (k <= m)%nat ->
            mat_dims mat (m + 1) (n + 1) /\
            (forall i, (i <= k)%nat -> mat_get mat i 0 = int_wrap (Z.of_nat i * gap scr)) /\
            (forall i j, (i <= m)%nat -> (j <= n)%nat -> (k < i \/ 0 < j)%nat ->
                         mat_get mat i j = 0))); [| |exact Hk].
    - intros _. split; [apply mat_dims_replicate|]. split.
      + intros i Hi. assert (i = O) as -> by lia.
        unfold mat0. rewrite mat_get_replicate by lia. reflexivity.
      + intros i j Hi Hj _. unfold mat0. apply mat_get_replicate; lia.
    - intros l acc Hl IH Hle. destruct IH as (Hd & Hcol & Hzero); [lia|].
      unfold body1. replace (1 + l - 1)%nat with l by lia.
      split; [apply mat_dims_set; exact Hd|]. split.
      + intros i Hi. destruct (decide (i = S l)) as [->|Hne].
        * replace (1 + l)%nat with (S l) by lia.
          rewrite (mat_get_set_eq _ (m + 1) (n + 1)) by (auto; lia).
          rewrite Hcol by lia. apply int_add_wrap_mul.
        * rewrite mat_get_set_ne by lia. apply Hcol. lia.
      + intros i j Hi Hj Hor. rewrite mat_get_set_ne by lia. apply Hzero; lia. }
  destruct (H1 m (Nat.le_refl m)) as (Hd1 & Hcol1 & Hzero1).
  simpl in Hd1, Hcol1, Hzero1.
  set (mat1 := for_range 1 m body1 mat0) in *.
  assert (H2 : forall k, (k <= n)%nat ->
            let mat := for_range 1 k body2 mat1 in
            mat_dims mat (m + 1) (n + 1) /\
            (forall i, (i <= m)%nat -> mat_get mat i 0 = int_wrap (Z.of_nat i * gap scr)) /\
            (forall j, (j <= k)%nat -> mat_get mat 0 j = int_wrap (Z.of_nat j * gap scr))).
  { intros k Hk. simpl.
    apply (for_range_ind (fun k mat => (k <= n)%nat ->
            mat_dims mat (m + 1) (n + 1) /\
            (forall i, (i <= m)%nat -> mat_get mat i 0 = int_wrap (Z.of_nat i * gap scr)) /\
            (forall j, (j <= k)%nat -> mat_get mat 0 j = int_wrap (Z.of_nat j * gap scr))));
      [| |exact Hk].
    - intros _. split; [exact Hd1|]. split; [exact Hcol1|].
      intros j Hj. assert (j = O) as -> by lia. apply Hcol1. lia.
    - intros l acc Hl IH Hle. destruct IH as (Hd & Hcol & Hrow); [lia|].
      unfold body2. replace (1 + l - 1)%nat with l by lia.
      split; [apply mat_dims_set; exact Hd|]. split.
      + intros i Hi. rewrite mat_get_set_ne by lia. apply Hcol. exact Hi.
      + intros j Hj. destruct (decide (j = S l)) as [->|Hne].
        * replace (1 + l)%nat with (S l) by lia.
          rewrite (mat_get_set_eq _ (m + 1) (n + 1)) by (auto; lia).
          rewrite Hrow by lia. apply int_add_wrap_mul.
        * rewrite mat_get_set_ne by lia. apply Hrow. lia. }
  exact (H2 n (Nat.le_refl n)).
Qed.

(** C6 (amended).  The matrix built by [generateAlignmentMatrix] has
    [m + 1] rows of [n + 1] columns each and [mat[0][0] = 0]; for
    [1 <= i <= m] the cell [mat[i][0]] holds [i * gap] reduced to a 32-bit
    [int], which is [i * gap] itself whenever that product is
    representable; likewise [mat[0][j]] and [j * gap] for [1 <= j <= n]. *)
Theorem generateAlignmentMatrix_shape_and_boundary (m n : nat) (scr : Scoring) :
  let mat := generateAlignmentMatrix m n scr in
  length mat = (m + 1)%nat /\
  (forall row, row ∈ mat -> length row = (n + 1)%nat) /\
  mat_get mat 0 0 = 0 /\
  (forall i, (1 <= i <= m)%nat ->
     mat_get mat i 0 = int_wrap (Z.of_nat i * gap scr) /\
     (int_range (Z.of_nat i * gap scr) -> mat_get mat i 0 = Z.of_nat i * gap scr)) /\
  (forall j, (1 <= j <= n)%nat ->
     mat_get mat 0 j = int_wrap (Z.of_nat j * gap scr) /\
     (int_range (Z.of_nat j * gap scr) -> mat_get mat 0 j = Z.of_nat j * gap scr)).
Proof.
  destruct (generateAlignmentMatrix_boundary m n scr) as ([Hlen Hrows] & Hcol & Hrow).
  simpl. split; [exact Hlen|]. split; [|split; [|split]].
  - intros row Hin. apply list_elem_of_lookup_total in Hin as (i & Hi & <-).
    apply Hrows. lia.
  - rewrite Hcol by lia. reflexivity.
  - intros i Hi. split; [apply Hcol; lia|].
    intros Hr. rewrite Hcol by lia. apply int_wrap_id. exact Hr.
  - intros j Hj. split; [apply Hrow; lia|].
    intros Hr. rewrite Hrow by lia. apply int_wrap_id. exact Hr.
Qed.

(** With [gap = 2^30] and [m = 2] the cell [mat[2][0]] is not [2 * gap]:
    the second addition leaves the range of [int]. *)
Lemma generateAlignmentMatrix_boundary_overflow :
  let scr := mkScoring 0 0 (2 ^ 30) in
  int_range (gap scr) /\
  mat_get (generateAlignmentMatrix 2 0 scr) 2 0 = - 2 ^ 31 /\
  mat_get (generateAlignmentMatrix 2 0 scr) 2 0 <> 2 * gap scr.
Proof.
  vm_compute. split; [split; discriminate|]. split; [reflexivity|discriminate].
Qed.

Lemma generateAlignmentMatrix_shape_and_boundary_witness :
  let mat := generateAlignmentMatrix 2 3 (mkScoring 1 (-1) (-2)) in
  mat_get mat 2 0 = -4 /\ mat_get mat 0 3 = -6.
Proof.
  pose proof (generateAlignmentMatrix_shape_and_boundary 2 3 (mkScoring 1 (-1) (-2)))
    as (_ & _ & _ & Hcol & Hrow).
  split.
  - apply (Hcol 2%nat); [lia|]. vm_compute. split; discriminate.
  - apply (Hrow 3%nat); [lia|]. vm_compute. split; discriminate.
Defined.

(** ** The fill loops compute the recurrence *)

Lemma score_bound_spec (scr : Scoring) :
  0 <= score_bound scr /\
  Z.abs (match_ scr) <= score_bound scr /\
  Z.abs (mismatch scr) <= score_bound scr /\
  Z.abs (gap scr) <= score_bound scr.
Proof. unfold score_bound. lia. Qed.

Lemma nw_score_S_S (A B : list ascii) (scr : Scoring) (i j : nat) :
  nw_score A B scr (S i) (S j) =
  Z.max (nw_score A B scr i j + subst_score A B scr i j)
    (Z.max (nw_score A B scr i (S j) + gap scr) (nw_score A B scr (S i) j + gap scr)).
Proof. reflexivity. Qed.

Lemma nw_score_S_0 (A B : list ascii) (scr : Scoring) (i : nat) :
  nw_score A B scr (S i) O = nw_score A B scr i O + gap scr.
Proof. reflexivity. Qed.

Lemma nw_score_0_S (A B : list ascii) (scr : Scoring) (j : nat) :
  nw_score A B scr O (S j) = nw_score A B scr O j + gap scr.
Proof. reflexivity. Qed.

Lemma nw_score_col0 (A B : list ascii) (scr : Scoring) (i : nat) :
  nw_score A B scr i O = Z.of_nat i * gap scr.
Proof.
  induction i as [|i IH]; [reflexivity|].
  rewrite nw_score_S_0, IH. lia.
Qed.

Lemma nw_score_row0 (A B : list ascii) (scr : Scoring) (j : nat) :
  nw_score A B scr O j = Z.of_nat j * gap scr.
Proof.
  induction j as [|j IH]; [reflexivity|].
  rewrite nw_score_0_S, IH. lia.
Qed.

Lemma subst_score_bound (A B : list ascii) (scr : Scoring) (i j : nat) :
  Z.abs (subst_score A B scr i j) <= score_bound scr.
Proof.
  pose proof (score_bound_spec scr). unfold subst_score.
  destruct (Ascii.eqb _ _); lia.
Qed.

Lemma nw_score_bound (A B : list ascii) (scr : Scoring) (i j : nat) :
  Z.abs (nw_score A B scr i j) <= Z.of_nat (i + j) * score_bound scr.
Proof.
  pose proof (score_bound_spec scr) as (HK & _ & _ & Hg).
  revert j. induction i as [|i IHi]; intros j.
  - rewrite nw_score_row0. rewrite Z.abs_mul, Z.abs_eq by lia.
    apply Z.mul_le_mono_nonneg_l; lia.
  - induction j as [|j IHj].
    + rewrite nw_score_col0. rewrite Z.abs_mul, Z.abs_eq by lia.
      replace (S i + 0)%nat with (S i) by lia.
      apply Z.mul_le_mono_nonneg_l; lia.
    + rewrite nw_score_S_S.
      pose proof (subst_score_bound A B scr i j) as Hs.
      pose proof (IHi j) as H1. pose proof (IHi (S j)) as H2.
      replace (Z.of_nat (S i + S j)) with (Z.of_nat (i + j) + 2) by lia.
      replace (Z.of_nat (i + S j)) with (Z.of_nat (i + j) + 1) in H2 by lia.
      replace (Z.of_nat (S i + j)) with (Z.of_nat (i + j) + 1) in IHj by lia.
      lia.
Qed.

Lemma scaled_le (K : Z) (a b : nat) :
  0 <= K -> (a <= b)%nat -> Z.of_nat a * K <= Z.of_nat b * K.
Proof. intros HK Hab. apply Z.mul_le_mono_nonneg_r; lia. Qed.

Lemma fill_matrix_dims (A B : list ascii) (scr : Scoring) (mat : matrix) (rows cols : nat) :
  mat_dims mat rows cols -> mat_dims (fill_matrix A B scr mat) rows cols.
Proof.
  intros Hd. unfold fill_matrix.
  apply (for_range_ind (fun _ mat' => mat_dims mat' rows cols)); [exact Hd|].
  intros k acc _ Hacc.
  apply (for_range_ind (fun _ mat' => mat_dims mat' rows cols)); [exact Hacc|].
  intros l acc' _ Hacc'. unfold fill_cell. apply mat_dims_set. exact Hacc'.
Qed.

Section Fill.
Variables (A B : list ascii) (scr : Scoring).
Hypothesis Hno : no_overflow A B scr.

Let m := length A.
Let n := length B.

(** A cell value plus one score stays within [int]. *)
Lemma nw_sum_in_range (i j : nat) (d : Z) :
  (i + j < m + n)%nat -> Z.abs d <= score_bound scr ->
  int_range (nw_score A B scr i j + d).
Proof.
  intros Hij Hd.
  pose proof (score_bound_spec scr) as (HK & _).
  pose proof (nw_score_bound A B scr i j) as Hb.
  pose proof (scaled_le (score_bound scr) (S (i + j)) (m + n) HK ltac:(lia)) as Hle.
  replace (Z.of_nat (S (i + j))) with (Z.of_nat (i + j) + 1) in Hle by lia.
  unfold no_overflow in Hno. fold m n in Hno.
  unfold int_range, INT_MIN, INT_MAX in *. lia.
Qed.

Lemma nw_boundary_in_range (k : nat) :
  (k <= m + n)%nat -> int_range (Z.of_nat k * gap scr).
Proof.
  intros Hk.
  pose proof (score_bound_spec scr) as (HK & _ & _ & Hg).
  pose proof (scaled_le (score_bound scr) k (m + n) HK Hk) as Hle.
  assert (Z.abs (Z.of_nat k * gap scr) <= Z.of_nat k * score_bound scr).
  { rewrite Z.abs_mul, Z.abs_eq by lia. apply Z.mul_le_mono_nonneg_l; lia. }
  unfold no_overflow in Hno. fold m n in Hno.
  unfold int_range, INT_MIN, INT_MAX in *. lia.
Qed.

Lemma generateAlignmentMatrix_filled :
  let mat := generateAlignmentMatrix m n scr in
  mat_dims mat (m + 1) (n + 1) /\ filled A B scr 0 0 mat.
Proof.
  destruct (generateAlignmentMatrix_boundary m n scr) as (Hd & Hcol & Hrow).
  simpl. split; [exact Hd|].
  intros i j Hi Hj Hor. fold m in Hi. fold n in Hj.
  assert (Hcase : i = O \/ j = O) by lia.
  destruct Hcase as [-> | ->].
  - rewrite Hrow by exact Hj. rewrite nw_score_row0.
    apply int_wrap_id, nw_boundary_in_range. lia.
  - rewrite Hcol by exact Hi. rewrite nw_score_col0.
    apply int_wrap_id, nw_boundary_in_range. lia.
Qed.

(** Writing cell [(S k, S l)] once its three neighbours are right. *)
Lemma fill_cell_filled (k l : nat) (mat : matrix) :
  (k < m)%nat -> (l < n)%nat ->
  mat_dims mat (m + 1) (n + 1) -> filled A B scr k l mat ->
  mat_dims (fill_cell A B scr (S k) (S l) mat) (m + 1) (n + 1) /\
  filled A B scr k (S l) (fill_cell A B scr (S k) (S l) mat).
Proof.
  intros Hk Hl Hd Hf. unfold fill_cell.
  split; [apply mat_dims_set; exact Hd|].
  replace (S k - 1)%nat with k by lia. replace (S l - 1)%nat with l by lia.
  rewrite (Hf k l), (Hf k (S l)), (Hf (S k) l) by (fold m n; lia).
  fold (subst_score A B scr k l).
  pose proof (score_bound_spec scr) as (_ & _ & _ & Hg).
  rewrite !int_add_exact
    by (apply nw_sum_in_range; [lia | first [exact Hg | apply subst_score_bound]]).
  rewrite <- nw_score_S_S.
  intros i j Hi Hj Hor. fold m in Hi. fold n in Hj.
  destruct (decide (i = S k /\ j = S l)) as [[-> ->]|Hne].
  - apply (mat_get_set_eq _ (m + 1) (n + 1)); [exact Hd|lia|lia].
  - rewrite mat_get_set_ne by lia. apply Hf; fold m n; lia.
Qed.

Lemma fill_row_filled (k : nat) (mat : matrix) :
  (k < m)%nat ->
  mat_dims mat (m + 1) (n + 1) -> filled A B scr k 0 mat ->
  let mat' := for_range 1 n (fun j mat => fill_cell A B scr (S k) j mat) mat in
  mat_dims mat' (m + 1) (n + 1) /\ filled A B scr (S k) 0 mat'.
Proof.
  intros Hk Hd Hf. simpl.
  assert (Hrow : let mat' := for_range 1 n (fun j mat => fill_cell A B scr (S k) j mat) mat in
                 mat_dims mat' (m + 1) (n + 1) /\ filled A B scr k n mat').
  { simpl.
    apply (for_range_ind (fun l mat' => (l <= n)%nat ->
             mat_dims mat' (m + 1) (n + 1) /\ filled A B scr k l mat')); [| |lia].
    - intros _. split; assumption.
    - intros l acc Hl IH _. destruct IH as [Hd' Hf']; [lia|].
      apply fill_cell_filled; assumption. }
  destruct Hrow as [Hd' Hf']. split; [exact Hd'|].
  intros i j Hi Hj Hor. apply Hf'; [exact Hi|exact Hj|]. fold n in Hj. lia.
Qed.

Lemma fill_matrix_filled (mat : matrix) :
  mat_dims mat (m + 1) (n + 1) -> filled A B scr 0 0 mat ->
  mat_dims (fill_matrix A B scr mat) (m + 1) (n + 1) /\
  filled A B scr m 0 (fill_matrix A B scr mat).
Proof.
  intros Hd Hf. unfold fill_matrix. fold m n.
  apply (for_range_ind (fun k mat' => (k <= m)%nat ->
           mat_dims mat' (m + 1) (n + 1) /\ filled A B scr k 0 mat')); [| |lia].
  - intros _. split; assumption.
  - intros k acc Hk IH _. destruct IH as [Hd' Hf']; [lia|].
    apply (fill_row_filled k acc Hk Hd' Hf').
Qed.

(** Every cell of the filled matrix holds the value of the recurrence. *)
Lemma filled_matrix_correct (i j : nat) :
  (i <= m)%nat -> (j <= n)%nat ->
  mat_get (fill_matrix A B scr (generateAlignmentMatrix m n scr)) i j
  = nw_score A B scr i j.
Proof.
  intros Hi Hj.
  destruct generateAlignmentMatrix_filled as [Hd0 Hf0].
  destruct (fill_matrix_filled _ Hd0 Hf0) as [_ Hf].
  apply Hf; fold m n; lia.
Qed.
End Fill.

(** ** The recurrence is the optimum over all alignments *)

Lemma top_snoc (cols : list column) (c : column) :
  top (cols ++ [c]) =
  top cols ++ match c with Pair a _ => [a] | Delete a => [a] | Insert _ => [] end.
Proof. unfold top. rewrite flat_map_app. simpl. rewrite app_nil_r. reflexivity. Qed.

Lemma bottom_snoc (cols : list column) (c : column) :
  bottom (cols ++ [c]) =
  bottom cols ++ match c with Pair _ b => [b] | Delete _ => [] | Insert b => [b] end.
Proof. unfold bottom. rewrite flat_map_app. simpl. rewrite app_nil_r. reflexivity. Qed.

Lemma alignment_score_app (scr : Scoring) (cols1 cols2 : list column) :
  alignment_score scr (cols1 ++ cols2) = alignment_score scr cols1 + alignment_score scr cols2.
Proof.
  induction cols1 as [|c cols1 IH]; simpl; [reflexivity|]. rewrite IH. lia.
Qed.

Lemma alignment_score_snoc (scr : Scoring) (cols : list column) (c : column) :
  alignment_score scr (cols ++ [c]) = alignment_score scr cols + column_score scr c.
Proof. rewrite alignment_score_app. simpl. lia. Qed.

Lemma char_at_lookup (s : list ascii) (i : nat) :
  (i < length s)%nat -> s !! i = Some (char_at s i).
Proof.
  intros Hi. unfold char_at.
  destruct (lookup_lt_is_Some_2 s i Hi) as [x ->]. reflexivity.
Qed.

Lemma take_S_char (s : list ascii) (i : nat) :
  (i < length s)%nat -> take (S i) s = take i s ++ [char_at s i].
Proof. intros Hi. apply take_S_r, char_at_lookup, Hi. Qed.

Lemma snoc_eq_take (X s : list ascii) (a : ascii) (i : nat) :
  (i <= length s)%nat -> X ++ [a] = take i s ->
  exists i', i = S i' /\ (i' < length s)%nat /\ X = take i' s /\ a = char_at s i'.
Proof.
  intros Hi Heq. destruct i as [|i'].
  - rewrite take_0 in Heq. destruct X; discriminate.
  - exists i'. split; [reflexivity|]. split; [lia|].
    rewrite take_S_char in Heq by lia.
    apply app_inj_tail in Heq. exact Heq.
Qed.

Lemma nil_eq_take (s : list ascii) (i : nat) :
  (i <= length s)%nat -> [] = take i s -> i = O.
Proof.
  intros Hi Heq. apply (f_equal length) in Heq.
  rewrite length_take in Heq. simpl in Heq. lia.
Qed.

Lemma nw_score_ge_delete (A B : list ascii) (scr : Scoring) (i j : nat) :
  nw_score A B scr i j + gap scr <= nw_score A B scr (S i) j.
Proof.
  destruct j as [|j]; [rewrite nw_score_S_0; lia|]. rewrite nw_score_S_S. lia.
Qed.

Lemma nw_score_ge_insert (A B : list ascii) (scr : Scoring) (i j : nat) :
  nw_score A B scr i j + gap scr <= nw_score A B scr i (S j).
Proof.
  destruct i as [|i]; [rewrite nw_score_0_S; lia|]. rewrite nw_score_S_S. lia.
Qed.

Lemma nw_score_ge_pair (A B : list ascii) (scr : Scoring) (i j : nat) :
  nw_score A B scr i j + subst_score A B scr i j <= nw_score A B scr (S i) (S j).
Proof. rewrite nw_score_S_S. lia. Qed.

Lemma nw_score_upper_bound (A B : list ascii) (scr : Scoring) (cols : list column) :
  forall i j, (i <= length A)%nat -> (j <= length B)%nat ->
    aligns cols (take i A) (take j B) ->
    alignment_score scr cols <= nw_score A B scr i j.
Proof.
  induction cols as [|c cols IH] using rev_ind; intros i j Hi Hj [Ht Hb].
  - apply nil_eq_take in Ht; [|exact Hi]. apply nil_eq_take in Hb; [|exact Hj].
    subst. simpl. lia.
  - rewrite top_snoc in Ht. rewrite bottom_snoc in Hb.
    rewrite alignment_score_snoc.
    destruct c as [a b|a|b]; simpl.
    + apply snoc_eq_take in Ht as (i' & -> & Hi' & Ht & ->); [|exact Hi].
      apply snoc_eq_take in Hb as (j' & -> & Hj' & Hb & ->); [|exact Hj].
      pose proof (IH i' j' ltac:(lia) ltac:(lia) (conj Ht Hb)).
      pose proof (nw_score_ge_pair A B scr i' j'). unfold subst_score in *. lia.
    + apply snoc_eq_take in Ht as (i' & -> & Hi' & Ht & ->); [|exact Hi].
      rewrite app_nil_r in Hb.
      pose proof (IH i' j ltac:(lia) Hj (conj Ht Hb)).
      pose proof (nw_score_ge_delete A B scr i' j). lia.
    + apply snoc_eq_take in Hb as (j' & -> & Hj' & Hb & ->); [|exact Hj].
      rewrite app_nil_r in Ht.
      pose proof (IH i j' Hi ltac:(lia) (conj Ht Hb)).
      pose proof (nw_score_ge_insert A B scr i j'). lia.
Qed.

Lemma nw_score_achieved (A B : list ascii) (scr : Scoring) :
  forall i j, (i <= length A)%nat -> (j <= length B)%nat ->
    exists cols, aligns cols (take i A) (take j B) /\
                 alignment_score scr cols = nw_score A B scr i j.
Proof.
  assert (Hdel : forall i j cols, (i < length A)%nat ->
            aligns cols (take i A) (take j B) ->
            aligns (cols ++ [Delete (char_at A i)]) (take (S i) A) (take j B)).
  { intros i j cols Hi [Ht Hb]. split.
    - rewrite top_snoc, Ht, take_S_char by exact Hi. reflexivity.
    - rewrite bottom_snoc, Hb, app_nil_r. reflexivity. }
  assert (Hins : forall i j cols, (j < length B)%nat ->
            aligns cols (take i A) (take j B) ->
            aligns (cols ++ [Insert (char_at B j)]) (take i A) (take (S j) B)).
  { intros i j cols Hj [Ht Hb]. split.
    - rewrite top_snoc, Ht, app_nil_r. reflexivity.
    - rewrite bottom_snoc, Hb, take_S_char by exact Hj. reflexivity. }
  assert (Hpair : forall i j cols, (i < length A)%nat -> (j < length B)%nat ->
            aligns cols (take i A) (take j B) ->
            aligns (cols ++ [Pair (char_at A i) (char_at B j)]) (take (S i) A) (take (S j) B)).
  { intros i j cols Hi Hj [Ht Hb]. split.
    - rewrite top_snoc, Ht, take_S_char by exact Hi. reflexivity.
    - rewrite bottom_snoc, Hb, take_S_char by exact Hj. reflexivity. }
  induction i as [|i IHi].
  - induction j as [|j IHj]; intros Hi Hj.
    + exists []. split; [split; reflexivity|reflexivity].
    + destruct IHj as (cols & Hal & Hsc); [lia|lia|].
      exists (cols ++ [Insert (char_at B j)]). split; [apply Hins; [lia|exact Hal]|].
      rewrite alignment_score_snoc, Hsc, nw_score_0_S. reflexivity.
  - induction j as [|j IHj]; intros Hi Hj.
    + destruct (IHi O) as (cols & Hal & Hsc); [lia|lia|].
      exists (cols ++ [Delete (char_at A i)]). split; [apply Hdel; [lia|exact Hal]|].
      rewrite alignment_score_snoc, Hsc, nw_score_S_0. reflexivity.
    + rewrite nw_score_S_S.
      destruct (Z.max_spec (nw_score A B scr i j + subst_score A B scr i j)
                  (Z.max (nw_score A B scr i (S j) + gap scr)
                         (nw_score A B scr (S i) j + gap scr))) as [[_ ->]|[_ ->]].
      * destruct (Z.max_spec (nw_score A B scr i (S j) + gap scr)
                    (nw_score A B scr (S i) j + gap scr)) as [[_ ->]|[_ ->]].
        -- destruct IHj as (cols & Hal & Hsc); [lia|lia|].
           exists (cols ++ [Insert (char_at B j)]).
           split; [apply Hins; [lia|exact Hal]|].
           rewrite alignment_score_snoc, Hsc. reflexivity.
        -- destruct (IHi (S j)) as (cols & Hal & Hsc); [lia|lia|].
           exists (cols ++ [Delete (char_at A i)]).
           split; [apply Hdel; [lia|exact Hal]|].
           rewrite alignment_score_snoc, Hsc. reflexivity.
      * destruct (IHi j) as (cols & Hal & Hsc); [lia|lia|].
        exists (cols ++ [Pair (char_at A i) (char_at B j)]).
        split; [apply Hpair; [lia|lia|exact Hal]|].
        rewrite alignment_score_snoc, Hsc. reflexivity.
Qed.

Lemma nw_score_optimal (A B : list ascii) (scr : Scoring) (i j : nat) :
  (i <= length A)%nat -> (j <= length B)%nat ->
  is_optimal_score scr (take i A) (take j B) (nw_score A B scr i j).
Proof.
  intros Hi Hj. split.
  - apply nw_score_achieved; assumption.
  - intros cols Hal. apply nw_score_upper_bound; assumption.
Qed.

(** ** The traceback loop *)

Lemma traceback_move_fires (mat : matrix) (A B : list ascii) (i j : nat) :
  traceback_move mat A B i j <> NoMove.
Proof.
  unfold traceback_move.
  destruct (Ascii.eqb _ _); simpl; [discriminate|].
  destruct (Z.geb_spec (mat_get mat (i - 1) (j - 1)) (mat_get mat i (j - 1)));
    destruct (Z.geb_spec (mat_get mat (i - 1) (j - 1)) (mat_get mat (i - 1) j));
    destruct (Z.geb_spec (mat_get mat (i - 1) j) (mat_get mat i (j - 1)));
    destruct (Z.geb_spec (mat_get mat (i - 1) j) (mat_get mat (i - 1) (j - 1)));
    destruct (Z.geb_spec (mat_get mat i (j - 1)) (mat_get mat (i - 1) j));
    destruct (Z.geb_spec (mat_get mat i (j - 1)) (mat_get mat (i - 1) (j - 1)));
    simpl; try discriminate; lia.
Qed.

Lemma traceback_step_decreases (mat : matrix) (A B : list ascii) (c : cursor) :
  (0 < cur_i c)%nat -> (0 < cur_j c)%nat ->
  let c' := traceback_step mat A B c in
  (cur_i c' + cur_j c' < cur_i c + cur_j c)%nat /\
  (cur_i c' <= cur_i c)%nat /\ (cur_j c' <= cur_j c)%nat.
Proof.
  intros Hi Hj. simpl. unfold traceback_step.
  pose proof (traceback_move_fires mat A B (cur_i c) (cur_j c)) as Hfire.
  destruct (traceback_move mat A B (cur_i c) (cur_j c)); simpl; [lia|lia|lia|congruence].
Qed.

Lemma traceback_loop_terminates (mat : matrix) (A B : list ascii) (fuel : nat) :
  forall c, (cur_i c + cur_j c <= fuel)%nat ->
    exists c', traceback_loop fuel mat A B c = Some c'.
Proof.
  induction fuel as [|fuel IH]; intros c Hc; simpl.
  - destruct (Nat.ltb_spec 0 (cur_i c)); destruct (Nat.ltb_spec 0 (cur_j c));
      simpl; eauto; lia.
  - destruct (Nat.ltb_spec 0 (cur_i c)); destruct (Nat.ltb_spec 0 (cur_j c));
      simpl; eauto.
    apply IH.
    pose proof (traceback_step_decreases mat A B c ltac:(lia) ltac:(lia)) as (Hd & _).
    lia.
Qed.

(** The result of the loop does not depend on the fuel it was given. *)
Lemma traceback_loop_fuel_irrelevant (mat : matrix) (A B : list ascii) (fuel1 : nat) :
  forall fuel2 c c1 c2,
    traceback_loop fuel1 mat A B c = Some c1 ->
    traceback_loop fuel2 mat A B c = Some c2 ->
    c1 = c2.
Proof.
  induction fuel1 as [|fuel1 IH]; intros fuel2 c c1 c2 H1 H2.
  - simpl in H1. destruct fuel2; simpl in H2;
      destruct ((0 <? cur_i c)%nat && (0 <? cur_j c)%nat); congruence.
  - simpl in H1. destruct fuel2; simpl in H2;
      destruct ((0 <? cur_i c)%nat && (0 <? cur_j c)%nat); try congruence.
    exact (IH _ _ _ _ H1 H2).
Qed.

(** Invariant rule for the loop: a property preserved by every executed
    iteration holds on exit, where [i = 0] or [j = 0]. *)
Lemma traceback_loop_ind (P : cursor -> Prop) (mat : matrix) (A B : list ascii) :
  (forall c, (0 < cur_i c)%nat -> (0 < cur_j c)%nat -> P c -> P (traceback_step mat A B c)) ->
  forall fuel c c', P c -> traceback_loop fuel mat A B c = Some c' ->
    P c' /\ (cur_i c' = O \/ cur_j c' = O).
Proof.
  intros Hstep. induction fuel as [|fuel IH]; intros c c' HP Hrun; simpl in Hrun.
  - destruct (Nat.ltb_spec 0 (cur_i c)); destruct (Nat.ltb_spec 0 (cur_j c));
      simpl in Hrun; try discriminate; injection Hrun as <-; split; auto; lia.
  - destruct (Nat.ltb_spec 0 (cur_i c)); destruct (Nat.ltb_spec 0 (cur_j c));
      simpl in Hrun;
      try (injection Hrun as <-; split; [exact HP|lia]).
    apply (IH _ _ (Hstep c ltac:(assumption) ltac:(assumption) HP) Hrun).
Qed.

Lemma drop_pred_char (s : list ascii) (i : nat) :
  (0 < i <= length s)%nat -> drop (i - 1) s = char_at s (i - 1) :: drop i s.
Proof.
  intros Hi. rewrite (drop_S s (char_at s (i - 1)) (i - 1)).
  - replace (S (i - 1)) with i by lia. reflexivity.
  - apply char_at_lookup. lia.
Qed.

Lemma renders_diagonal (A B : list ascii) (i j : nat) (s1 s2 : list ascii) :
  (0 < i <= length A)%nat -> (0 < j <= length B)%nat ->
  renders A B i j s1 s2 ->
  renders A B (i - 1) (j - 1) (s1 ++ [char_at A (i - 1)]) (s2 ++ [char_at B (j - 1)]).
Proof.
  intros Hi Hj (cols & [Ht Hb] & H1 & H2).
  exists (Pair (char_at A (i - 1)) (char_at B (j - 1)) :: cols).
  rewrite !rev_unit, H1, H2, !drop_pred_char by assumption.
  split; [split|split]; simpl; congruence.
Qed.

Lemma renders_left (A B : list ascii) (i j : nat) (s1 s2 : list ascii) :
  (0 < i <= length A)%nat ->
  renders A B i j s1 s2 ->
  renders A B (i - 1) j (s1 ++ [char_at A (i - 1)]) (s2 ++ [GAP]).
Proof.
  intros Hi (cols & [Ht Hb] & H1 & H2).
  exists (Delete (char_at A (i - 1)) :: cols).
  rewrite !rev_unit, H1, H2, drop_pred_char by assumption.
  split; [split|split]; simpl; congruence.
Qed.

Lemma renders_up (A B : list ascii) (i j : nat) (s1 s2 : list ascii) :
  (0 < j <= length B)%nat ->
  renders A B i j s1 s2 ->
  renders A B i (j - 1) (s1 ++ [GAP]) (s2 ++ [char_at B (j - 1)]).
Proof.
  intros Hj (cols & [Ht Hb] & H1 & H2).
  exists (Insert (char_at B (j - 1)) :: cols).
  rewrite !rev_unit, H1, H2, drop_pred_char by assumption.
  split; [split|split]; simpl; congruence.
Qed.

Lemma traceback_step_renders (mat : matrix) (A B : list ascii) (c : cursor) :
  (0 < cur_i c <= length A)%nat -> (0 < cur_j c <= length B)%nat ->
  renders A B (cur_i c) (cur_j c) (al1 c) (al2 c) ->
  let c' := traceback_step mat A B c in
  renders A B (cur_i c') (cur_j c') (al1 c') (al2 c').
Proof.
  intros Hi Hj Hr. simpl. unfold traceback_step.
  destruct (traceback_move mat A B (cur_i c) (cur_j c)); simpl.
  - apply renders_diagonal; assumption.
  - apply renders_left; assumption.
  - apply renders_up; assumption.
  - exact Hr.
Qed.

Lemma copy_remaining1_renders (A B : list ascii) (i : nat) :
  forall c, (i <= length A)%nat ->
    renders A B i (cur_j c) (al1 c) (al2 c) ->
    let c' := copy_remaining1 A c i in
    cur_j c' = cur_j c /\ renders A B 0 (cur_j c) (al1 c') (al2 c').
Proof.
  induction i as [|i IH]; intros c Hi Hr; simpl.
  - split; [reflexivity|exact Hr].
  - apply (renders_left A B (S i) (cur_j c)) in Hr; [|lia].
    replace (S i - 1)%nat with i in Hr by lia.
    apply (IH (mkCursor i (cur_j c) (al1 c ++ [char_at A i]) (al2 c ++ [GAP])));
      [lia|exact Hr].
Qed.

Lemma copy_remaining2_renders (A B : list ascii) (i j : nat) :
  forall c, (j <= length B)%nat ->
    renders A B i j (al1 c) (al2 c) ->
    let c' := copy_remaining2 B c j in
    renders A B i 0 (al1 c') (al2 c').
Proof.
  induction j as [|j IH]; intros c Hj Hr; simpl.
  - exact Hr.
  - apply (renders_up A B i (S j)) in Hr; [|lia].
    replace (S j - 1)%nat with j in Hr by lia.
    apply (IH (mkCursor (cur_i c) j (al1 c ++ [GAP]) (al2 c ++ [char_at B j])));
      [lia|exact Hr].
Qed.

(** The program returns, whatever fuel at least [size(A) + size(B)] it is
    run with, and its two strings display an alignment of [A] and [B]. *)
Lemma alignment_algorithm_fuel_renders (A B : list ascii) (scr : Scoring) (fuel : nat) :
  (length A + length B <= fuel)%nat ->
  exists al cols,
    alignment_algorithm_fuel fuel A B scr = Some al /\
    score al = fill_matrix A B scr (generateAlignmentMatrix (length A) (length B) scr) /\
    aligns cols A B /\
    seq1 al = render_top cols /\ seq2 al = render_bottom cols.
Proof.
  intros Hfuel. unfold alignment_algorithm_fuel.
  set (mat := fill_matrix A B scr _).
  set (c0 := mkCursor (length A) (length B) [] []).
  destruct (traceback_loop_terminates mat A B fuel c0 Hfuel) as [c Hrun].
  rewrite Hrun.
  destruct (traceback_loop_ind
              (fun c => (cur_i c <= length A)%nat /\ (cur_j c <= length B)%nat /\
                        renders A B (cur_i c) (cur_j c) (al1 c) (al2 c))
              mat A B) with (fuel := fuel) (c := c0) (c' := c)
    as ((Hi & Hj & Hr) & _).
  - intros c1 Hi1 Hj1 (Hi & Hj & Hr).
    pose proof (traceback_step_decreases mat A B c1 Hi1 Hj1) as (_ & Hdi & Hdj).
    simpl in Hdi, Hdj.
    split; [lia|]. split; [lia|].
    apply traceback_step_renders; [lia|lia|exact Hr].
  - simpl. split; [lia|]. split; [lia|].
    exists []. rewrite !drop_all. repeat split.
  - exact Hrun.
  - destruct (copy_remaining1_renders A B (cur_i c) c Hi Hr) as [Hj1 Hr1].
    set (c1 := copy_remaining1 A c (cur_i c)) in *.
    rewrite <- Hj1 in Hr1.
    pose proof (copy_remaining2_renders A B 0 (cur_j c1) c1 ltac:(lia) Hr1)
      as (cols & Hal & H1 & H2).
    rewrite !drop_0 in Hal.
    eexists; exists cols. split; [reflexivity|]. simpl.
    split; [reflexivity|]. split; [exact Hal|]. split; assumption.
Qed.

Lemma alignment_algorithm_renders (A B : list ascii) (scr : Scoring) :
  exists al cols,
    alignment_algorithm A B scr = Some al /\
    score al = fill_matrix A B scr (generateAlignmentMatrix (length A) (length B) scr) /\
    aligns cols A B /\
    seq1 al = render_top cols /\ seq2 al = render_bottom cols.
Proof. apply alignment_algorithm_fuel_renders. lia. Qed.

(** ** Displayed alignments *)

Lemma length_render_top (cols : list column) : length (render_top cols) = length cols.
Proof. apply length_map. Qed.

Lemma length_render_bottom (cols : list column) : length (render_bottom cols) = length cols.
Proof. apply length_map. Qed.

Lemma length_top_le (cols : list column) : (length (top cols) <= length cols)%nat.
Proof.
  induction cols as [|[a b|a|b] cols IH]; simpl; lia.
Qed.

Lemma length_bottom_le (cols : list column) : (length (bottom cols) <= length cols)%nat.
Proof.
  induction cols as [|[a b|a|b] cols IH]; simpl; lia.
Qed.

Lemma gap_free_by_evaluation (s : list ascii) :
  bool_decide (GAP ∉ s) = true -> GAP ∉ s.
Proof. apply bool_decide_eq_true_1. Qed.

Lemma remove_gaps_render_top (cols : list column) :
  GAP ∉ top cols -> remove_gaps (render_top cols) = top cols.
Proof.
  unfold remove_gaps.
  induction cols as [|[a b|a|b] cols IH]; simpl; intros Hnot.
  - reflexivity.
  - apply not_elem_of_cons in Hnot as [Hne Hnot].
    rewrite filter_cons_True by congruence. f_equal. exact (IH Hnot).
  - apply not_elem_of_cons in Hnot as [Hne Hnot].
    rewrite filter_cons_True by congruence. f_equal. exact (IH Hnot).
  - rewrite filter_cons_False by (intros H; apply H; reflexivity). exact (IH Hnot).
Qed.

Lemma remove_gaps_render_bottom (cols : list column) :
  GAP ∉ bottom cols -> remove_gaps (render_bottom cols) = bottom cols.
Proof.
  unfold remove_gaps.
  induction cols as [|[a b|a|b] cols IH]; simpl; intros Hnot.
  - reflexivity.
  - apply not_elem_of_cons in Hnot as [Hne Hnot].
    rewrite filter_cons_True by congruence. f_equal. exact (IH Hnot).
  - rewrite filter_cons_False by (intros H; apply H; reflexivity). exact (IH Hnot).
  - apply not_elem_of_cons in Hnot as [Hne Hnot].
    rewrite filter_cons_True by congruence. f_equal. exact (IH Hnot).
Qed.

Lemma render_no_double_gap (cols : list column) :
  GAP ∉ top cols -> GAP ∉ bottom cols ->
  forall k, ~ (render_top cols !! k = Some GAP /\ render_bottom cols !! k = Some GAP).
Proof.
  induction cols as [|c cols IH]; intros Ht Hb k [H1 H2].
  - discriminate.
  - destruct k as [|k].
    + destruct c as [a b|a|b]; simpl in *.
      * apply not_elem_of_cons in Ht as [Hne _]. congruence.
      * apply not_elem_of_cons in Ht as [Hne _]. congruence.
      * apply not_elem_of_cons in Hb as [Hne _]. congruence.
    + apply (IH) with (k := k).
      * destruct c; simpl in Ht; [apply not_elem_of_cons in Ht as [_ Ht]| |]; try exact Ht.
        apply not_elem_of_cons in Ht as [_ Ht]. exact Ht.
      * destruct c; simpl in Hb; [apply not_elem_of_cons in Hb as [_ Hb]| |]; try exact Hb.
        apply not_elem_of_cons in Hb as [_ Hb]. exact Hb.
      * split; [exact H1|exact H2].
Qed.

(** ** The score of the displayed alignment *)

Lemma calc_score_body_position (al : Alignment) (scr : Scoring) (i : nat) (acc : Z) :
  calc_score_body al scr i acc
  = int_add acc (position_score scr (char_at (seq1 al) i) (char_at (seq2 al) i)).
Proof.
  unfold calc_score_body, position_score.
  destruct (Ascii.eqb_spec (char_at (seq1 al) i) (char_at (seq2 al) i)) as [Heq|Hne].
  - rewrite decide_True by exact Heq. reflexivity.
  - rewrite decide_False by exact Hne.
    destruct (Ascii.eqb_spec (char_at (seq1 al) i) GAP) as [H1|H1]; simpl.
    + rewrite decide_True by (left; exact H1). reflexivity.
    + destruct (Ascii.eqb_spec (char_at (seq2 al) i) GAP) as [H2|H2].
      * rewrite decide_True by (right; exact H2). reflexivity.
      * rewrite decide_False by (intros [?|?]; contradiction). reflexivity.
Qed.

Lemma sum_positions_app (scr : Scoring) (x1 x2 y1 y2 : list ascii) :
  length x1 = length x2 ->
  sum_positions scr (x1 ++ y1) (x2 ++ y2) = sum_positions scr x1 x2 + sum_positions scr y1 y2.
Proof.
  revert x2. induction x1 as [|a x1 IH]; intros [|b x2] Hlen; simpl in *; try discriminate.
  - reflexivity.
  - rewrite IH by congruence. lia.
Qed.

Lemma sum_positions_take_S (scr : Scoring) (s1 s2 : list ascii) (k : nat) :
  (k < length s1)%nat -> (k < length s2)%nat ->
  sum_positions scr (take (S k) s1) (take (S k) s2)
  = sum_positions scr (take k s1) (take k s2)
    + position_score scr (char_at s1 k) (char_at s2 k).
Proof.
  intros H1 H2. rewrite !take_S_char by assumption.
  rewrite sum_positions_app by (rewrite !length_take; lia).
  simpl. lia.
Qed.

Lemma calc_score_sum (s1 s2 : list ascii) (mat : matrix) (scr : Scoring) :
  length s1 = length s2 ->
  calc_score (mkAlignment s1 s2 mat) scr = int_wrap (sum_positions scr s1 s2).
Proof.
  intros Hlen. unfold calc_score. simpl.
  assert (Hinv : for_range 0 (length s1) (calc_score_body (mkAlignment s1 s2 mat) scr) 0
                 = int_wrap (sum_positions scr (take (length s1) s1) (take (length s1) s2))).
  { apply (for_range_ind (fun k acc => (k <= length s1)%nat ->
             acc = int_wrap (sum_positions scr (take k s1) (take k s2)))); [| |lia].
    - intros _. reflexivity.
    - intros k acc Hk IH _. rewrite IH by lia.
      rewrite calc_score_body_position. simpl.
      rewrite sum_positions_take_S by lia.
      unfold int_add. apply int_wrap_add_l. }
  rewrite Hinv. rewrite !take_ge by lia. reflexivity.
Qed.

(** * The claims *)

(** C1 (amended).  Whenever [(m + n) * max(|match|, |mismatch|, |gap|)]
    does not exceed [INT_MAX], so that no addition of the fill loops
    leaves the range of [int], the matrix returned in the alignment
    result holds at every cell [(i, j)], [0 <= i <= m], [0 <= j <= n],
    the value of the recurrence, and that value is the optimal global
    alignment score of the length-[i] prefix of [A] against the
    length-[j] prefix of [B]: some alignment of the two prefixes has this
    score and none has a larger one.  In particular this holds of
    [mat[m][n]] and the two full sequences. *)
Theorem alignment_matrix_optimal (A B : list ascii) (scr : Scoring) :
  no_overflow A B scr ->
  exists al,
    alignment_algorithm A B scr = Some al /\
    (forall i j, (i <= length A)%nat -> (j <= length B)%nat ->
       mat_get (score al) i j = nw_score A B scr i j /\
       is_optimal_score scr (take i A) (take j B) (mat_get (score al) i j)) /\
    is_optimal_score scr A B (mat_get (score al) (length A) (length B)).
Proof.
  intros Hno.
  destruct (alignment_algorithm_renders A B scr) as (al & cols & Hrun & Hmat & _).
  exists al. split; [exact Hrun|].
  assert (Hcells : forall i j, (i <= length A)%nat -> (j <= length B)%nat ->
            mat_get (score al) i j = nw_score A B scr i j /\
            is_optimal_score scr (take i A) (take j B) (mat_get (score al) i j)).
  { intros i j Hi Hj. rewrite Hmat.
    rewrite (filled_matrix_correct A B scr Hno i j Hi Hj).
    split; [reflexivity|]. apply nw_score_optimal; assumption. }
  split; [exact Hcells|].
  destruct (Hcells (length A) (length B) (Nat.le_refl _) (Nat.le_refl _)) as [_ Hopt].
  rewrite !take_ge in Hopt by lia. exact Hopt.
Qed.

Lemma alignment_matrix_optimal_witness :
  exists al,
    alignment_algorithm (str "GATTACA") (str "GCATGCU") (mkScoring 1 (-1) (-1)) = Some al /\
    (forall i j, (i <= 7)%nat -> (j <= 7)%nat ->
       mat_get (score al) i j
       = nw_score (str "GATTACA") (str "GCATGCU") (mkScoring 1 (-1) (-1)) i j /\
       is_optimal_score (mkScoring 1 (-1) (-1))
         (take i (str "GATTACA")) (take j (str "GCATGCU")) (mat_get (score al) i j)) /\
    is_optimal_score (mkScoring 1 (-1) (-1)) (str "GATTACA") (str "GCATGCU")
      (mat_get (score al) 7 7).
Proof.
  apply (alignment_matrix_optimal (str "GATTACA") (str "GCATGCU") (mkScoring 1 (-1) (-1))).
  vm_compute. discriminate.
Defined.

(** With [A = "AA"], [B = ""] and [gap = 2^30] the cell [mat[2][0]] holds
    [-2^31], while deleting both symbols scores [2^31]: the cell is not
    the optimal score of the prefixes of lengths 2 and 0. *)
Lemma alignment_matrix_not_optimal_on_overflow :
  exists al,
    alignment_algorithm (str "AA") (str "") (mkScoring 0 0 (2 ^ 30)) = Some al /\
    mat_get (score al) 2 0 = - 2 ^ 31 /\
    ~ is_optimal_score (mkScoring 0 0 (2 ^ 30))
        (take 2 (str "AA")) (take 0 (str "")) (mat_get (score al) 2 0).
Proof.
  eexists. split; [vm_compute; reflexivity|]. split; [vm_compute; reflexivity|].
  intros [_ Hub].
  specialize (Hub [Delete "A"%char; Delete "A"%char] (conj eq_refl eq_refl)).
  vm_compute in Hub. apply Hub. reflexivity.
Qed.

(** C2.  At a cursor [(i, j)] with [i > 0] and [j > 0], if
    [seq1[i-1] == seq2[j-1]] the traceback takes the diagonal move, for
    every matrix whatsoever: both symbols are appended and both indices
    decremented.  The two arms that only compare scores are entered only
    when the symbols differ. *)
Theorem traceback_equal_symbols_move_diagonally
    (mat : matrix) (A B : list ascii) (c : cursor) :
  (0 < cur_i c)%nat -> (0 < cur_j c)%nat ->
  (char_at A (cur_i c - 1) = char_at B (cur_j c - 1) ->
     traceback_move mat A B (cur_i c) (cur_j c) = Diagonal /\
     traceback_step mat A B c
     = mkCursor (cur_i c - 1) (cur_j c - 1)
         (al1 c ++ [char_at A (cur_i c - 1)]) (al2 c ++ [char_at B (cur_j c - 1)])) /\
  (traceback_move mat A B (cur_i c) (cur_j c) = Left \/
   traceback_move mat A B (cur_i c) (cur_j c) = Up ->
     char_at A (cur_i c - 1) <> char_at B (cur_j c - 1)).
Proof.
  intros _ _.
  assert (Hdiag : char_at A (cur_i c - 1) = char_at B (cur_j c - 1) ->
                  traceback_move mat A B (cur_i c) (cur_j c) = Diagonal).
  { intros Heq. unfold traceback_move.
    apply Ascii.eqb_eq in Heq. rewrite Heq. reflexivity. }
  split.
  - intros Heq. split; [exact (Hdiag Heq)|].
    unfold traceback_step. rewrite (Hdiag Heq). reflexivity.
  - intros Hmove Heq. rewrite (Hdiag Heq) in Hmove.
    destruct Hmove; discriminate.
Qed.

(** On ["A"] against ["A"] with [gap = 1] both gap neighbours of the
    corner are strictly larger than the diagonal one, and the step is
    diagonal all the same. *)
Lemma traceback_equal_symbols_move_diagonally_witness :
  let A := str "A" in
  let scr := mkScoring 1 (-1) 1 in
  let mat := fill_matrix A A scr (generateAlignmentMatrix 1 1 scr) in
  mat_get mat 0 0 < mat_get mat 1 0 /\
  mat_get mat 0 0 < mat_get mat 0 1 /\
  traceback_step mat A A (mkCursor 1 1 [] []) = mkCursor 0 0 A A.
Proof.
  split; [reflexivity|]. split; [reflexivity|].
  apply (traceback_equal_symbols_move_diagonally
           (fill_matrix (str "A") (str "A") (mkScoring 1 (-1) 1)
              (generateAlignmentMatrix 1 1 (mkScoring 1 (-1) 1)))
           (str "A") (str "A") (mkCursor 1 1 [] [])).
  - simpl. lia.
  - simpl. lia.
  - reflexivity.
Defined.

(** C3.  [calc_score] adds up, in [int] arithmetic, the classification
    of each position of the two equal-length aligned strings (equal
    symbols: [match]; otherwise a ['-'] on either side: [gap]; otherwise
    [mismatch]); the result does not depend on the matrix stored in the
    alignment.  For ["A"] against ["G"] under the default schema the
    recomputed score differs from the corner [mat[m][n]]. *)
Theorem calc_score_classifies_positions :
  (forall (s1 s2 : list ascii) (mat : matrix) (scr : Scoring),
     length s1 = length s2 ->
     calc_score (mkAlignment s1 s2 mat) scr = int_wrap (sum_positions scr s1 s2)) /\
  (exists A B scr al,
     alignment_algorithm A B scr = Some al /\
     calc_score al scr <> mat_get (score al) (length A) (length B)).
Proof.
  split; [exact calc_score_sum|].
  exists (str "A"), (str "G"), default_scoring.
  eexists. split; [vm_compute; reflexivity|].
  vm_compute. discriminate.
Qed.

Lemma calc_score_classifies_positions_witness :
  calc_score (mkAlignment (str "G-ATTACA") (str "GCA-TGCU") []) (mkScoring 1 (-1) (-1)) = 0.
Proof.
  destruct calc_score_classifies_positions as [Hsum _].
  rewrite Hsum; reflexivity.
Defined.

(** C4 (amended).  [alignment_algorithm] returns, and if [A] contains no
    ['-'] then removing every ['-'] from the first aligned string gives
    back exactly [A]; if [B] contains no ['-'] then removing every ['-']
    from the second aligned string gives back exactly [B]. *)
Theorem aligned_strings_reconstruct_inputs (A B : list ascii) (scr : Scoring) :
  exists al,
    alignment_algorithm A B scr = Some al /\
    (GAP ∉ A -> remove_gaps (seq1 al) = A) /\
    (GAP ∉ B -> remove_gaps (seq2 al) = B).
Proof.
  destruct (alignment_algorithm_renders A B scr)
    as (al & cols & Hrun & _ & [Ht Hb] & H1 & H2).
  exists al. split; [exact Hrun|]. split.
  - intros HA. rewrite H1, <- Ht. apply remove_gaps_render_top. rewrite Ht. exact HA.
  - intros HB. rewrite H2, <- Hb. apply remove_gaps_render_bottom. rewrite Hb. exact HB.
Qed.

Lemma aligned_strings_reconstruct_inputs_witness :
  exists al,
    alignment_algorithm (str "GATTACA") (str "GCATGCU") (mkScoring 1 (-1) (-1)) = Some al /\
    remove_gaps (seq1 al) = str "GATTACA" /\
    remove_gaps (seq2 al) = str "GCATGCU".
Proof.
  destruct (aligned_strings_reconstruct_inputs
              (str "GATTACA") (str "GCATGCU") (mkScoring 1 (-1) (-1)))
    as (al & Hrun & HA & HB).
  exists al. split; [exact Hrun|]. split.
  - apply HA. apply gap_free_by_evaluation. reflexivity.
  - apply HB. apply gap_free_by_evaluation. reflexivity.
Defined.

(** A ['-'] of the input is removed along with the inserted ones: for
    [A = "-"] and [B = ""] the first aligned string is ["-"], and removing
    its gaps leaves the empty string, not [A]. *)
Lemma aligned_strings_lose_input_dash :
  exists al,
    alignment_algorithm (str "-") (str "") default_scoring = Some al /\
    seq1 al = str "-" /\
    remove_gaps (seq1 al) <> str "-".
Proof.
  eexists. split; [vm_compute; reflexivity|]. split; [reflexivity|].
  vm_compute. discriminate.
Qed.

(** C5.  The two aligned strings returned by [alignment_algorithm] have
    the same length, and that length is at least [max(m, n)]. *)
Theorem aligned_strings_equal_length (A B : list ascii) (scr : Scoring) :
  exists al,
    alignment_algorithm A B scr = Some al /\
    length (seq1 al) = length (seq2 al) /\
    (Nat.max (length A) (length B) <= length (seq1 al))%nat.
Proof.
  destruct (alignment_algorithm_renders A B scr)
    as (al & cols & Hrun & _ & [Ht Hb] & H1 & H2).
  exists al. split; [exact Hrun|].
  rewrite H1, H2, length_render_top, length_render_bottom.
  split; [reflexivity|].
  pose proof (length_top_le cols). pose proof (length_bottom_le cols).
  rewrite <- Ht, <- Hb. lia.
Qed.

(** C7.  [alignment_algorithm] returns a result for every pair of
    strings and every scoring triple, the same one for every bound of at
    least [m + n] iterations put on the traceback loop; its matrix has
    [m + 1] rows of [n + 1] entries, so every cell the loops touch
    exists.  In an iteration
    of that loop with [i > 0] and [j > 0] one of the three arms is
    entered, never the fall-through, and [i + j] strictly decreases. *)
Theorem alignment_algorithm_total (A B : list ascii) (scr : Scoring) :
  (exists al,
     alignment_algorithm A B scr = Some al /\
     mat_dims (score al) (length A + 1) (length B + 1) /\
     forall fuel, (length A + length B <= fuel)%nat ->
       alignment_algorithm_fuel fuel A B scr = Some al) /\
  (forall (mat : matrix) (c : cursor),
     (0 < cur_i c)%nat -> (0 < cur_j c)%nat ->
     (traceback_move mat A B (cur_i c) (cur_j c) = Diagonal \/
      traceback_move mat A B (cur_i c) (cur_j c) = Left \/
      traceback_move mat A B (cur_i c) (cur_j c) = Up) /\
     (cur_i (traceback_step mat A B c) + cur_j (traceback_step mat A B c)
      < cur_i c + cur_j c)%nat).
Proof.
  split.
  - destruct (alignment_algorithm_renders A B scr) as (al & _ & Hrun & Hmat & _).
    exists al. split; [exact Hrun|]. split.
    { rewrite Hmat. apply fill_matrix_dims.
      apply (generateAlignmentMatrix_boundary (length A) (length B) scr). }
    intros fuel Hfuel.
    destruct (alignment_algorithm_fuel_renders A B scr fuel Hfuel) as (al' & _ & Hrun' & _).
    rewrite Hrun'. f_equal.
    unfold alignment_algorithm, alignment_algorithm_fuel in Hrun, Hrun'.
    destruct (traceback_loop (length A + length B) _ A B _) as [c|] eqn:Hc; [|discriminate].
    destruct (traceback_loop fuel _ A B _) as [c'|] eqn:Hc'; [|discriminate].
    rewrite (traceback_loop_fuel_irrelevant _ _ _ _ _ _ _ _ Hc Hc') in Hrun.
    congruence.
  - intros mat c Hi Hj. split.
    + pose proof (traceback_move_fires mat A B (cur_i c) (cur_j c)) as Hfire.
      destruct (traceback_move mat A B (cur_i c) (cur_j c)); auto. congruence.
    + apply traceback_step_decreases; assumption.
Qed.

Lemma alignment_algorithm_total_witness :
  alignment_algorithm_fuel 20 (str "GATTACA") (str "GCATGCU") (mkScoring 1 (-1) (-1))
  = alignment_algorithm (str "GATTACA") (str "GCATGCU") (mkScoring 1 (-1) (-1)).
Proof.
  destruct (alignment_algorithm_total (str "GATTACA") (str "GCATGCU") (mkScoring 1 (-1) (-1)))
    as [(al & Hrun & _ & Hfuel) _].
  rewrite Hrun. apply Hfuel. simpl. lia.
Defined.

(** C8.  For [A = ""] and [B = "ACGT"] under the default schema
    ([match = 1], [mismatch = -1], [gap = 0]) the result is
    [aligned_seq1 = "----"], [aligned_seq2 = "ACGT"], and [mat[0][4] = 0]. *)
Theorem alignment_empty_against_ACGT :
  default_scoring = mkScoring 1 (-1) 0 /\
  exists al,
    alignment_algorithm (str "") (str "ACGT") default_scoring = Some al /\
    seq1 al = str "----" /\
    seq2 al = str "ACGT" /\
    mat_get (score al) 0 4 = 0.
Proof.
  split; [reflexivity|].
  eexists. split; [vm_compute; reflexivity|]. repeat split.
Qed.

(** ** Independence from memory outside the containers *)

Lemma for_range_ext {S : Type} (P : S -> Prop) (lo count : nat)
    (body body' : nat -> S -> S) (s : S) :
  P s ->
  (forall k acc, (k < count)%nat -> P acc ->
     body' (lo + k)%nat acc = body (lo + k)%nat acc /\ P (body (lo + k)%nat acc)) ->
  for_range lo count body' s = for_range lo count body s /\
  P (for_range lo count body s).
Proof.
  intros Hs Hstep. induction count as [|count IH].
  - split; [reflexivity|exact Hs].
  - rewrite !for_range_S.
    destruct IH as [Heq HP]; [intros k acc Hk; apply Hstep; lia|].
    rewrite Heq. apply Hstep; [lia|exact HP].
Qed.

Lemma copy_remaining1_cur_j (A : list ascii) (i : nat) :
  forall c, cur_j (copy_remaining1 A c i) = cur_j c.
Proof.
  induction i as [|i IH]; intros c; simpl; [reflexivity|]. rewrite IH. reflexivity.
Qed.

Lemma standard_reads_in_range : reads_in_range char_at mat_get.
Proof.
  split.
  - intros s i x Hx. unfold char_at. rewrite Hx. reflexivity.
  - intros mat i j row v Hrow Hv. unfold mat_get.
    rewrite (list_lookup_total_correct mat i row Hrow).
    apply (list_lookup_total_correct row j v Hv).
Qed.

Section ReadsInRange.
Variables (read_char : list ascii -> nat -> ascii) (read_cell : matrix -> nat -> nat -> Z).
Hypothesis Hreads : reads_in_range read_char read_cell.

Lemma read_char_in_range (s : list ascii) (i : nat) :
  (i < length s)%nat -> read_char s i = char_at s i.
Proof.
  intros Hi. destruct Hreads as [Hchar _]. apply Hchar, char_at_lookup, Hi.
Qed.

Lemma read_cell_in_range (mat : matrix) (rows cols i j : nat) :
  mat_dims mat rows cols -> (i < rows)%nat -> (j < cols)%nat ->
  read_cell mat i j = mat_get mat i j.
Proof.
  intros [Hr Hc] Hi Hj. destruct Hreads as [_ Hcell]. unfold mat_get.
  apply (Hcell mat i j (mat !!! i)).
  - apply list_lookup_lookup_total_lt. lia.
  - apply list_lookup_lookup_total_lt. rewrite Hc by exact Hi. exact Hj.
Qed.

Lemma generateAlignmentMatrix_rd_eq (m n : nat) (scr : Scoring) :
  generateAlignmentMatrix_rd read_cell m n scr = generateAlignmentMatrix m n scr.
Proof.
  unfold generateAlignmentMatrix_rd, generateAlignmentMatrix.
  set (mat0 := replicate (m + 1) (replicate (n + 1) 0)).
  assert (H1 : for_range 1 m
                 (fun i mat => mat_set mat i 0 (int_add (read_cell mat (i - 1)%nat 0%nat) (gap scr)))
                 mat0
               = for_range 1 m
                   (fun i mat => mat_set mat i 0 (int_add (mat_get mat (i - 1) 0) (gap scr)))
                   mat0 /\
               mat_dims (for_range 1 m
                   (fun i mat => mat_set mat i 0 (int_add (mat_get mat (i - 1) 0) (gap scr)))
                   mat0) (m + 1) (n + 1)).
  { apply (for_range_ext (fun mat => mat_dims mat (m + 1) (n + 1))).
    - apply mat_dims_replicate.
    - intros k acc Hk Hd. split; [|apply mat_dims_set; exact Hd].
      rewrite (read_cell_in_range acc (m + 1) (n + 1)) by (assumption || lia).
      reflexivity. }
  destruct H1 as [-> Hd1].
  apply (for_range_ext (fun mat => mat_dims mat (m + 1) (n + 1))); [exact Hd1|].
  intros k acc Hk Hd. split; [|apply mat_dims_set; exact Hd].
  rewrite (read_cell_in_range acc (m + 1) (n + 1)) by (assumption || lia).
  reflexivity.
Qed.

Lemma fill_cell_rd_eq (A B : list ascii) (scr : Scoring) (i j : nat) (mat : matrix) :
  mat_dims mat (length A + 1) (length B + 1) ->
  (1 <= i <= length A)%nat -> (1 <= j <= length B)%nat ->
  fill_cell_rd read_char read_cell A B scr i j mat = fill_cell A B scr i j mat.
Proof.
  intros Hd Hi Hj. unfold fill_cell_rd, fill_cell.
  rewrite !(read_cell_in_range mat (length A + 1) (length B + 1)) by (assumption || lia).
  rewrite !read_char_in_range by lia. reflexivity.
Qed.

Lemma fill_matrix_rd_eq (A B : list ascii) (scr : Scoring) (mat : matrix) :
  mat_dims mat (length A + 1) (length B + 1) ->
  fill_matrix_rd read_char read_cell A B scr mat = fill_matrix A B scr mat.
Proof.
  intros Hd. unfold fill_matrix_rd, fill_matrix.
  apply (for_range_ext (fun mat => mat_dims mat (length A + 1) (length B + 1)));
    [exact Hd|].
  intros k acc Hk Hacc.
  apply (for_range_ext (fun mat => mat_dims mat (length A + 1) (length B + 1)));
    [exact Hacc|].
  intros l acc' Hl Hacc'. split.
  - apply fill_cell_rd_eq; [exact Hacc'|lia|lia].
  - unfold fill_cell. apply mat_dims_set. exact Hacc'.
Qed.

Lemma traceback_step_rd_eq (mat : matrix) (A B : list ascii) (c : cursor) :
  mat_dims mat (length A + 1) (length B + 1) ->
  (0 < cur_i c <= length A)%nat -> (0 < cur_j c <= length B)%nat ->
  traceback_step_rd read_char read_cell mat A B c = traceback_step mat A B c.
Proof.
  intros Hd Hi Hj.
  unfold traceback_step_rd, traceback_step, traceback_move_rd, traceback_move.
  rewrite !(read_cell_in_range mat (length A + 1) (length B + 1)) by (assumption || lia).
  rewrite !read_char_in_range by lia. reflexivity.
Qed.

Lemma traceback_loop_rd_eq (mat : matrix) (A B : list ascii) (fuel : nat) :
  mat_dims mat (length A + 1) (length B + 1) ->
  forall c, (cur_i c <= length A)%nat -> (cur_j c <= length B)%nat ->
    traceback_loop_rd read_char read_cell fuel mat A B c = traceback_loop fuel mat A B c.
Proof.
  intros Hd. induction fuel as [|fuel IH]; intros c Hi Hj; simpl; [reflexivity|].
  destruct (Nat.ltb_spec 0 (cur_i c)); destruct (Nat.ltb_spec 0 (cur_j c));
    simpl; try reflexivity.
  rewrite traceback_step_rd_eq by (assumption || lia).
  pose proof (traceback_step_decreases mat A B c ltac:(lia) ltac:(lia)) as (_ & Hdi & Hdj).
  simpl in Hdi, Hdj. apply IH; lia.
Qed.

Lemma copy_remaining1_rd_eq (A : list ascii) (i : nat) :
  forall c, (i <= length A)%nat ->
    copy_remaining1_rd read_char A c i = copy_remaining1 A c i.
Proof.
  induction i as [|i IH]; intros c Hi; simpl; [reflexivity|].
  rewrite read_char_in_range by lia. apply IH. lia.
Qed.

Lemma copy_remaining2_rd_eq (B : list ascii) (j : nat) :
  forall c, (j <= length B)%nat ->
    copy_remaining2_rd read_char B c j = copy_remaining2 B c j.
Proof.
  induction j as [|j IH]; intros c Hj; simpl; [reflexivity|].
  rewrite read_char_in_range by lia. apply IH. lia.
Qed.

(** Every read of the program is within bounds, so over such read
    operations it is the program of the previous sections. *)
Lemma alignment_algorithm_rd_eq (fuel : nat) (A B : list ascii) (scr : Scoring) :
  alignment_algorithm_rd read_char read_cell fuel A B scr
  = alignment_algorithm_fuel fuel A B scr.
Proof.
  unfold alignment_algorithm_rd, alignment_algorithm_fuel.
  rewrite generateAlignmentMatrix_rd_eq.
  assert (Hd0 : mat_dims (generateAlignmentMatrix (length A) (length B) scr)
                  (length A + 1) (length B + 1))
    by apply (generateAlignmentMatrix_boundary (length A) (length B) scr).
  rewrite fill_matrix_rd_eq by exact Hd0.
  set (mat := fill_matrix A B scr _).
  assert (Hd : mat_dims mat (length A + 1) (length B + 1))
    by (apply fill_matrix_dims; exact Hd0).
  rewrite traceback_loop_rd_eq by (simpl; assumption || lia).
  destruct (traceback_loop fuel mat A B _) as [c|] eqn:Hrun; [|reflexivity].
  destruct (traceback_loop_ind
              (fun c => (cur_i c <= length A)%nat /\ (cur_j c <= length B)%nat) mat A B)
    with (fuel := fuel) (c := mkCursor (length A) (length B) [] []) (c' := c)
    as ((Hi & Hj) & _).
  - intros c1 Hi1 Hj1 (Hi & Hj).
    pose proof (traceback_step_decreases mat A B c1 Hi1 Hj1) as (_ & Hdi & Hdj).
    simpl in Hdi, Hdj. lia.
  - simpl. lia.
  - exact Hrun.
  - rewrite copy_remaining1_rd_eq by exact Hi.
    rewrite copy_remaining2_rd_eq; [reflexivity|].
    rewrite copy_remaining1_cur_j. exact Hj.
Qed.
End ReadsInRange.

(** C9.  Two runs of [alignment_algorithm] on the same inputs return the
    same result: the same two aligned strings and the same matrix.  The two
    runs may find anything at all in the memory outside the strings and
    the matrix (any two read operations that agree with the containers
    within their bounds), and may be given different iteration bounds:
    the program never reads outside what it was given or has written.
    The program of the other claims is the run over [char_at] and
    [mat_get]. *)
Theorem alignment_algorithm_deterministic (A B : list ascii) (scr : Scoring) :
  (forall fuel,
     alignment_algorithm_rd char_at mat_get fuel A B scr
     = alignment_algorithm_fuel fuel A B scr) /\
  (forall (read_char read_char' : list ascii -> nat -> ascii)
          (read_cell read_cell' : matrix -> nat -> nat -> Z)
          (fuel1 fuel2 : nat) (r1 r2 : Alignment),
     reads_in_range read_char read_cell ->
     reads_in_range read_char' read_cell' ->
     alignment_algorithm_rd read_char read_cell fuel1 A B scr = Some r1 ->
     alignment_algorithm_rd read_char' read_cell' fuel2 A B scr = Some r2 ->
     seq1 r1 = seq1 r2 /\ seq2 r1 = seq2 r2 /\ score r1 = score r2).
Proof.
  split.
  - intros fuel. apply alignment_algorithm_rd_eq. exact standard_reads_in_range.
  - intros rc rc' ri ri' fuel1 fuel2 r1 r2 Hrd Hrd' H1 H2.
    rewrite (alignment_algorithm_rd_eq rc ri Hrd) in H1.
    rewrite (alignment_algorithm_rd_eq rc' ri' Hrd') in H2.
    unfold alignment_algorithm_fuel in H1, H2.
    destruct (traceback_loop fuel1 _ A B _) as [c1|] eqn:Hc1; [|discriminate].
    destruct (traceback_loop fuel2 _ A B _) as [c2|] eqn:Hc2; [|discriminate].
    rewrite (traceback_loop_fuel_irrelevant _ _ _ _ _ _ _ _ Hc1 Hc2) in H1.
    assert (r1 = r2) as -> by congruence. repeat split.
Qed.

(** Two runs on ["GATTACA"] and ["GCATGCU"]: one reads ['X'] and [7]
    outside the containers, the other ['Y'] and [-1]. *)
Lemma alignment_algorithm_deterministic_witness :
  let rc := fun (s : list ascii) (i : nat) => default "X"%char (s !! i) in
  let ri := fun (mat : matrix) (i j : nat) => default 7 (mat !! i ≫= fun row => row !! j) in
  let rc' := fun (s : list ascii) (i : nat) => default "Y"%char (s !! i) in
  let ri' := fun (mat : matrix) (i j : nat) => default (-1) (mat !! i ≫= fun row => row !! j) in
  exists r1 r2,
    alignment_algorithm_rd rc ri 14 (str "GATTACA") (str "GCATGCU") (mkScoring 1 (-1) (-1))
    = Some r1 /\
    alignment_algorithm_rd rc' ri' 20 (str "GATTACA") (str "GCATGCU") (mkScoring 1 (-1) (-1))
    = Some r2 /\
    seq1 r1 = seq1 r2 /\ seq2 r1 = seq2 r2 /\ score r1 = score r2.
Proof.
  intros rc ri rc' ri'.
  eexists. eexists.
  split; [vm_compute; reflexivity|]. split; [vm_compute; reflexivity|].
  destruct (alignment_algorithm_deterministic
              (str "GATTACA") (str "GCATGCU") (mkScoring 1 (-1) (-1))) as [_ Hdet].
  apply (Hdet rc rc' ri ri' 14%nat 20%nat).
  - split.
    + intros s i x Hx. unfold rc. rewrite Hx. reflexivity.
    + intros mat i j row v Hrow Hv. unfold ri. rewrite Hrow. simpl. rewrite Hv. reflexivity.
  - split.
    + intros s i x Hx. unfold rc'. rewrite Hx. reflexivity.
    + intros mat i j row v Hrow Hv. unfold ri'. rewrite Hrow. simpl. rewrite Hv. reflexivity.
  - vm_compute. reflexivity.
  - vm_compute. reflexivity.
Defined.

(** C10 (amended).  If neither input contains ['-'], no position of the
    returned alignment carries ['-'] in both aligned strings.  (Each
    position displays a column that holds a symbol of [A], a symbol of
    [B], or both, so a gap is inserted on at most one side.) *)
Theorem aligned_strings_no_double_gap (A B : list ascii) (scr : Scoring) :
  GAP ∉ A -> GAP ∉ B ->
  exists al,
    alignment_algorithm A B scr = Some al /\
    forall k, ~ (seq1 al !! k = Some GAP /\ seq2 al !! k = Some GAP).
Proof.
  intros HA HB.
  destruct (alignment_algorithm_renders A B scr)
    as (al & cols & Hrun & _ & [Ht Hb] & H1 & H2).
  exists al. split; [exact Hrun|].
  rewrite H1, H2. apply render_no_double_gap; [rewrite Ht|rewrite Hb]; assumption.
Qed.

Lemma aligned_strings_no_double_gap_witness :
  exists al,
    alignment_algorithm (str "AC") (str "G") default_scoring = Some al /\
    forall k, ~ (seq1 al !! k = Some GAP /\ seq2 al !! k = Some GAP).
Proof.
  apply (aligned_strings_no_double_gap (str "AC") (str "G") default_scoring).
  - apply gap_free_by_evaluation. reflexivity.
  - apply gap_free_by_evaluation. reflexivity.
Defined.

(** For [A = "-"] and [B = "-"] the single position of the result carries
    ['-'] on both sides. *)
Lemma aligned_strings_double_gap_from_input :
  exists al,
    alignment_algorithm (str "-") (str "-") default_scoring = Some al /\
    seq1 al !! O = Some GAP /\ seq2 al !! O = Some GAP.
Proof.
  eexists. split; [vm_compute; reflexivity|]. split; reflexivity.
Qed.

(** * Additional properties *)

(** ** The matrix for arbitrary scores *)

Lemma int_score_S_S (A B : list ascii) (scr : Scoring) (i j : nat) :
  int_score A B scr (S i) (S j) =
  Z.max (int_add (int_score A B scr i j) (subst_score A B scr i j))
    (Z.max (int_add (int_score A B scr i (S j)) (gap scr))
           (int_add (int_score A B scr (S i) j) (gap scr))).
Proof. reflexivity. Qed.

Lemma int_score_col0 (A B : list ascii) (scr : Scoring) (i : nat) :
  int_score A B scr i O = int_wrap (Z.of_nat i * gap scr).
Proof. destruct i; reflexivity. Qed.

Lemma int_score_row0 (A B : list ascii) (scr : Scoring) (j : nat) :
  int_score A B scr O j = int_wrap (Z.of_nat j * gap scr).
Proof. reflexivity. Qed.

Section FillInt.
Variables (A B : list ascii) (scr : Scoring).

Let m := length A.
Let n := length B.

Lemma generateAlignmentMatrix_filled_int :
  let mat := generateAlignmentMatrix m n scr in
  mat_dims mat (m + 1) (n + 1) /\ filled_int A B scr 0 0 mat.
Proof.
  destruct (generateAlignmentMatrix_boundary m n scr) as (Hd & Hcol & Hrow).
  simpl. split; [exact Hd|].
  intros i j Hi Hj Hor. fold m in Hi. fold n in Hj.
  assert (Hcase : i = O \/ j = O) by lia.
  destruct Hcase as [-> | ->].
  - rewrite Hrow by exact Hj. symmetry. apply int_score_row0.
  - rewrite Hcol by exact Hi. symmetry. apply int_score_col0.
Qed.

Lemma fill_cell_filled_int (k l : nat) (mat : matrix) :
  (k < m)%nat -> (l < n)%nat ->
  mat_dims mat (m + 1) (n + 1) -> filled_int A B scr k l mat ->
  mat_dims (fill_cell A B scr (S k) (S l) mat) (m + 1) (n + 1) /\
  filled_int A B scr k (S l) (fill_cell A B scr (S k) (S l) mat).
Proof.
  intros Hk Hl Hd Hf. unfold fill_cell.
  split; [apply mat_dims_set; exact Hd|].
  replace (S k - 1)%nat with k by lia. replace (S l - 1)%nat with l by lia.
  rewrite (Hf k l), (Hf k (S l)), (Hf (S k) l) by (fold m n; lia).
  fold (subst_score A B scr k l).
  rewrite <- int_score_S_S.
  intros i j Hi Hj Hor. fold m in Hi. fold n in Hj.
  destruct (decide (i = S k /\ j = S l)) as [[-> ->]|Hne].
  - apply (mat_get_set_eq _ (m + 1) (n + 1)); [exact Hd|lia|lia].
  - rewrite mat_get_set_ne by lia. apply Hf; fold m n; lia.
Qed.

Lemma fill_row_filled_int (k : nat) (mat : matrix) :
  (k < m)%nat ->
  mat_dims mat (m + 1) (n + 1) -> filled_int A B scr k 0 mat ->
  let mat' := for_range 1 n (fun j mat => fill_cell A B scr (S k) j mat) mat in
  mat_dims mat' (m + 1) (n + 1) /\ filled_int A B scr (S k) 0 mat'.
Proof.
  intros Hk Hd Hf. simpl.
  assert (Hrow : let mat' := for_range 1 n (fun j mat => fill_cell A B scr (S k) j mat) mat in
                 mat_dims mat' (m + 1) (n + 1) /\ filled_int A B scr k n mat').
  { simpl.
    apply (for_range_ind (fun l mat' => (l <= n)%nat ->
             mat_dims mat' (m + 1) (n + 1) /\ filled_int A B scr k l mat')); [| |lia].
    - intros _. split; assumption.
    - intros l acc Hl IH _. destruct IH as [Hd' Hf']; [lia|].
      apply fill_cell_filled_int; assumption. }
  destruct Hrow as [Hd' Hf']. split; [exact Hd'|].
  intros i j Hi Hj Hor. apply Hf'; [exact Hi|exact Hj|]. fold n in Hj. lia.
Qed.

(** Whatever the scores, every cell of the filled matrix holds the value
    of the recurrence evaluated in [int] arithmetic. *)
Lemma filled_matrix_int_score (i j : nat) :
  (i <= m)%nat -> (j <= n)%nat ->
  mat_get (fill_matrix A B scr (generateAlignmentMatrix m n scr)) i j
  = int_score A B scr i j.
Proof.
  intros Hi Hj.
  destruct generateAlignmentMatrix_filled_int as [Hd0 Hf0].
  assert (Hall : mat_dims (fill_matrix A B scr (generateAlignmentMatrix m n scr)) (m + 1) (n + 1) /\
                 filled_int A B scr m 0 (fill_matrix A B scr (generateAlignmentMatrix m n scr))).
  { unfold fill_matrix. fold m n.
    apply (for_range_ind (fun k mat' => (k <= m)%nat ->
             mat_dims mat' (m + 1) (n + 1) /\ filled_int A B scr k 0 mat')); [| |lia].
    - intros _. split; assumption.
    - intros k acc Hk IH _. destruct IH as [Hd' Hf']; [lia|].
      apply (fill_row_filled_int k acc Hk Hd' Hf'). }
  destruct Hall as [_ Hf]. apply Hf; fold m n; lia.
Qed.
End FillInt.

Lemma subst_score_sym (A B : list ascii) (scr : Scoring) (i j : nat) :
  subst_score A B scr i j = subst_score B A scr j i.
Proof.
  unfold subst_score.
  destruct (Ascii.eqb_spec (char_at A i) (char_at B j)) as [Heq|Hne];
    destruct (Ascii.eqb_spec (char_at B j) (char_at A i)) as [Heq'|Hne'];
    congruence.
Qed.

Lemma int_score_transpose (A B : list ascii) (scr : Scoring) (i : nat) :
  forall j, int_score A B scr i j = int_score B A scr j i.
Proof.
  induction i as [|i IHi]; intros j.
  - rewrite int_score_row0, int_score_col0. reflexivity.
  - induction j as [|j IHj].
    + rewrite int_score_row0, int_score_col0. reflexivity.
    + rewrite !int_score_S_S.
      rewrite (IHi j), (IHi (S j)), IHj, (subst_score_sym A B scr i j).
      f_equal. apply Z.max_comm.
Qed.

(** X1.  [generateAlignmentMatrix] only writes the first row and the
    first column: every other cell of the matrix it returns is still the
    [0] the matrix was created with. *)
Theorem generateAlignmentMatrix_interior_zero (m n : nat) (scr : Scoring) (i j : nat) :
  (1 <= i <= m)%nat -> (1 <= j <= n)%nat ->
  mat_get (generateAlignmentMatrix m n scr) i j = 0.
Proof.
  intros Hi Hj. unfold generateAlignmentMatrix.
  set (mat0 := replicate (m + 1) (replicate (n + 1) 0)).
  set (body1 := fun (i : nat) (mat : matrix) =>
                  mat_set mat i 0 (int_add (mat_get mat (i - 1) 0) (gap scr))).
  set (body2 := fun (j : nat) (mat : matrix) =>
                  mat_set mat 0 j (int_add (mat_get mat 0 (j - 1)) (gap scr))).
  assert (H1 : mat_get (for_range 1 m body1 mat0) i j = 0).
  { apply (for_range_ind (fun _ mat => mat_get mat i j = 0)).
    - unfold mat0. apply mat_get_replicate; lia.
    - intros k acc _ IH. unfold body1. rewrite mat_get_set_ne by lia. exact IH. }
  apply (for_range_ind (fun _ mat => mat_get mat i j = 0)); [exact H1|].
  intros k acc _ IH. unfold body2. rewrite mat_get_set_ne by lia. exact IH.
Qed.

Lemma generateAlignmentMatrix_interior_zero_witness :
  mat_get (generateAlignmentMatrix 3 2 (mkScoring 1 (-1) (-2))) 3 2 = 0.
Proof.
  apply (generateAlignmentMatrix_interior_zero 3 2 (mkScoring 1 (-1) (-2)) 3 2); lia.
Defined.

(** X2.  The fill loops never write the first row or the first column:
    in the matrix returned by [alignment_algorithm] every cell [(i, 0)]
    and [(0, j)] still holds what [generateAlignmentMatrix] put there. *)
Theorem alignment_matrix_keeps_boundary (A B : list ascii) (scr : Scoring) :
  exists al,
    alignment_algorithm A B scr = Some al /\
    forall i j, (i <= length A)%nat -> (j <= length B)%nat -> i = O \/ j = O ->
      mat_get (score al) i j
      = mat_get (generateAlignmentMatrix (length A) (length B) scr) i j.
Proof.
  destruct (alignment_algorithm_renders A B scr) as (al & _ & Hrun & Hmat & _).
  exists al. split; [exact Hrun|].
  intros i j _ _ Hij. rewrite Hmat. unfold fill_matrix.
  set (mat0 := generateAlignmentMatrix (length A) (length B) scr).
  apply (for_range_ind (fun _ mat => mat_get mat i j = mat_get mat0 i j)); [reflexivity|].
  intros k acc _ Hacc.
  apply (for_range_ind (fun _ mat => mat_get mat i j = mat_get mat0 i j)); [exact Hacc|].
  intros l acc' _ Hacc'. unfold fill_cell.
  rewrite mat_get_set_ne by lia. exact Hacc'.
Qed.

Lemma alignment_matrix_keeps_boundary_witness :
  exists al,
    alignment_algorithm (str "GAT") (str "CA") (mkScoring 2 (-1) (-2)) = Some al /\
    mat_get (score al) 2 0 = mat_get (generateAlignmentMatrix 3 2 (mkScoring 2 (-1) (-2))) 2 0 /\
    mat_get (score al) 0 1 = mat_get (generateAlignmentMatrix 3 2 (mkScoring 2 (-1) (-2))) 0 1.
Proof.
  destruct (alignment_matrix_keeps_boundary (str "GAT") (str "CA") (mkScoring 2 (-1) (-2)))
    as (al & Hrun & Hkeep).
  exists al. split; [exact Hrun|]. split.
  - apply (Hkeep 2%nat 0%nat); [simpl; lia|simpl; lia|right; reflexivity].
  - apply (Hkeep 0%nat 1%nat); [simpl; lia|simpl; lia|left; reflexivity].
Defined.

(** X3.  Exchanging the two input strings transposes the matrix: the
    cell [(i, j)] of the matrix for [(A, B)] equals the cell [(j, i)] of
    the matrix for [(B, A)]. *)
Theorem alignment_matrix_transpose (A B : list ascii) (scr : Scoring) :
  exists al al',
    alignment_algorithm A B scr = Some al /\
    alignment_algorithm B A scr = Some al' /\
    forall i j, (i <= length A)%nat -> (j <= length B)%nat ->
      mat_get (score al) i j = mat_get (score al') j i.
Proof.
  destruct (alignment_algorithm_renders A B scr) as (al & _ & Hrun & Hmat & _).
  destruct (alignment_algorithm_renders B A scr) as (al' & _ & Hrun' & Hmat' & _).
  exists al, al'. split; [exact Hrun|]. split; [exact Hrun'|].
  intros i j Hi Hj. rewrite Hmat, Hmat'.
  rewrite !filled_matrix_int_score by lia.
  apply int_score_transpose.
Qed.

Lemma alignment_matrix_transpose_witness :
  exists al al',
    alignment_algorithm (str "GAT") (str "CA") (mkScoring 2 (-1) (-2)) = Some al /\
    alignment_algorithm (str "CA") (str "GAT") (mkScoring 2 (-1) (-2)) = Some al' /\
    mat_get (score al) 3 1 = mat_get (score al') 1 3.
Proof.
  destruct (alignment_matrix_transpose (str "GAT") (str "CA") (mkScoring 2 (-1) (-2)))
    as (al & al' & Hrun & Hrun' & Hcells).
  exists al, al'. split; [exact Hrun|]. split; [exact Hrun'|].
  apply Hcells; simpl; lia.
Defined.

(** ** The traceback on particular shapes of input *)

Lemma traceback_loop_exit (fuel : nat) (mat : matrix) (A B : list ascii) (c : cursor) :
  cur_i c = O \/ cur_j c = O -> traceback_loop fuel mat A B c = Some c.
Proof.
  intros Hc. destruct fuel; simpl;
    destruct (Nat.ltb_spec 0 (cur_i c)); destruct (Nat.ltb_spec 0 (cur_j c));
    simpl; try reflexivity; lia.
Qed.

Lemma rev_replicate (n : nat) (x : ascii) : rev (replicate n x) = replicate n x.
Proof.
  induction n as [|n IH]; [reflexivity|].
  simpl. rewrite IH. symmetry. apply replicate_cons_app.
Qed.

Lemma rev_take_S (s : list ascii) (i : nat) :
  (i < length s)%nat -> rev (take (S i) s) = char_at s i :: rev (take i s).
Proof. intros Hi. rewrite take_S_char by exact Hi. apply rev_unit. Qed.

Lemma copy_remaining1_strings (A : list ascii) (i : nat) :
  forall c, (i <= length A)%nat ->
    al1 (copy_remaining1 A c i) = al1 c ++ rev (take i A) /\
    al2 (copy_remaining1 A c i) = al2 c ++ replicate i GAP /\
    cur_j (copy_remaining1 A c i) = cur_j c.
Proof.
  induction i as [|i IH]; intros c Hi; simpl.
  - rewrite !app_nil_r. auto.
  - destruct (IH (mkCursor i (cur_j c) (al1 c ++ [char_at A i]) (al2 c ++ [GAP])))
      as (H1 & H2 & H3); [lia|].
    rewrite H1, H2, H3. simpl.
    rewrite <- !app_assoc. simpl.
    replace (char_at A i :: rev (take i A)) with (rev (take (S i) A))
      by (apply rev_take_S; lia).
    auto.
Qed.

Lemma copy_remaining2_strings (B : list ascii) (j : nat) :
  forall c, (j <= length B)%nat ->
    al1 (copy_remaining2 B c j) = al1 c ++ replicate j GAP /\
    al2 (copy_remaining2 B c j) = al2 c ++ rev (take j B).
Proof.
  induction j as [|j IH]; intros c Hj; simpl.
  - rewrite !app_nil_r. auto.
  - destruct (IH (mkCursor (cur_i c) j (al1 c ++ [GAP]) (al2 c ++ [char_at B j])))
      as (H1 & H2); [lia|].
    rewrite H1, H2. simpl.
    rewrite <- !app_assoc. simpl.
    replace (char_at B j :: rev (take j B)) with (rev (take (S j) B))
      by (apply rev_take_S; lia).
    auto.
Qed.

Lemma fill_matrix_empty_r (A : list ascii) (scr : Scoring) (mat : matrix) :
  fill_matrix A [] scr mat = mat.
Proof.
  unfold fill_matrix.
  apply (for_range_ind (fun _ mat' => mat' = mat)); [reflexivity|].
  intros k acc _ ->. reflexivity.
Qed.

(** X4.  With an empty first string nothing is compared: the first
    aligned string consists of [size(B)] gaps, the second is [B], and the
    matrix is the single boundary row built by [generateAlignmentMatrix]. *)
Theorem alignment_of_empty_first (B : list ascii) (scr : Scoring) :
  alignment_algorithm [] B scr
  = Some (mkAlignment (replicate (length B) GAP) B
            (generateAlignmentMatrix 0 (length B) scr)).
Proof.
  unfold alignment_algorithm, alignment_algorithm_fuel.
  change (fill_matrix [] B scr (generateAlignmentMatrix (length []) (length B) scr))
    with (generateAlignmentMatrix 0 (length B) scr).
  rewrite traceback_loop_exit by (left; reflexivity).
  cbn [cur_i cur_j copy_remaining1 length].
  destruct (copy_remaining2_strings B (length B) (mkCursor 0 (length B) [] []))
    as [H1 H2]; [lia|].
  rewrite H1, H2. simpl.
  rewrite rev_replicate, rev_involutive, take_ge by lia. reflexivity.
Qed.

(** X5.  With an empty second string the first aligned string is [A],
    the second consists of [size(A)] gaps, and the matrix is the single
    boundary column built by [generateAlignmentMatrix]. *)
Theorem alignment_of_empty_second (A : list ascii) (scr : Scoring) :
  alignment_algorithm A [] scr
  = Some (mkAlignment A (replicate (length A) GAP)
            (generateAlignmentMatrix (length A) 0 scr)).
Proof.
  unfold alignment_algorithm, alignment_algorithm_fuel.
  rewrite fill_matrix_empty_r.
  rewrite traceback_loop_exit by (right; reflexivity).
  cbn [cur_i cur_j length].
  destruct (copy_remaining1_strings A (length A) (mkCursor (length A) 0 [] []))
    as (H1 & H2 & H3); [lia|].
  rewrite H3. cbn [cur_j copy_remaining2].
  rewrite H1, H2. simpl.
  rewrite rev_replicate, rev_involutive, take_ge by lia. reflexivity.
Qed.

Lemma traceback_loop_same (mat : matrix) (A : list ascii) (k : nat) :
  forall fuel s1 s2, (k <= length A)%nat -> (k <= fuel)%nat ->
    traceback_loop fuel mat A A (mkCursor k k s1 s2)
    = Some (mkCursor 0 0 (s1 ++ rev (take k A)) (s2 ++ rev (take k A))).
Proof.
  induction k as [|k IH]; intros fuel s1 s2 Hk Hfuel.
  - rewrite traceback_loop_exit by (left; reflexivity).
    rewrite take_0. simpl. rewrite !app_nil_r. reflexivity.
  - destruct fuel as [|fuel]; [lia|]. simpl.
    unfold traceback_step, traceback_move. simpl.
    rewrite Ascii.eqb_refl. simpl.
    rewrite Nat.sub_0_r.
    rewrite IH by lia.
    rewrite <- !app_assoc. simpl.
    rewrite rev_take_S by lia. reflexivity.
Qed.

Lemma sum_positions_same (scr : Scoring) (s : list ascii) :
  sum_positions scr s s = Z.of_nat (length s) * match_ scr.
Proof.
  induction s as [|a s IH]; [reflexivity|].
  cbn [sum_positions length]. rewrite IH. unfold position_score.
  rewrite decide_True by reflexivity. lia.
Qed.

(** X6.  A string aligned against itself comes back unchanged on both
    sides, whatever the scoring schema (equal symbols always step
    diagonally, so no gap is inserted), and [calc_score] of the result is
    [size(A) * match] reduced to [int]. *)
Theorem alignment_of_identical_strings (A : list ascii) (scr : Scoring) :
  exists al,
    alignment_algorithm A A scr = Some al /\
    seq1 al = A /\ seq2 al = A /\
    calc_score al scr = int_wrap (Z.of_nat (length A) * match_ scr).
Proof.
  unfold alignment_algorithm, alignment_algorithm_fuel.
  rewrite traceback_loop_same by lia.
  cbn [cur_i cur_j copy_remaining1 copy_remaining2 al1 al2].
  rewrite app_nil_l, rev_involutive, take_ge by lia.
  eexists. split; [reflexivity|]. cbn [seq1 seq2].
  split; [reflexivity|]. split; [reflexivity|].
  rewrite calc_score_sum by reflexivity. rewrite sum_positions_same. reflexivity.
Qed.

(** ** The displayed alignment and its score *)

Lemma length_cols_le (cols : list column) :
  (length cols <= length (top cols) + length (bottom cols))%nat.
Proof.
  induction cols as [|[a b|a|b] cols IH]; simpl; lia.
Qed.

Lemma alignment_score_bound (scr : Scoring) (cols : list column) :
  Z.abs (alignment_score scr cols) <= Z.of_nat (length cols) * score_bound scr.
Proof.
  pose proof (score_bound_spec scr) as (HK & Hm & Hmm & Hg).
  induction cols as [|c cols IH]; [simpl; lia|].
  cbn [alignment_score foldr length]. fold (alignment_score scr cols).
  assert (Hc : Z.abs (column_score scr c) <= score_bound scr).
  { destruct c as [a b|a|b]; simpl; [destruct (Ascii.eqb a b)|..]; lia. }
  replace (Z.of_nat (S (length cols))) with (Z.of_nat (length cols) + 1) by lia.
  lia.
Qed.

Lemma sum_positions_render (scr : Scoring) (cols : list column) :
  GAP ∉ top cols -> GAP ∉ bottom cols ->
  sum_positions scr (render_top cols) (render_bottom cols) = alignment_score scr cols.
Proof.
  induction cols as [|c cols IH]; intros Ht Hb; [reflexivity|].
  cbn [render_top render_bottom map sum_positions alignment_score foldr].
  fold (render_top cols) (render_bottom cols) (alignment_score scr cols).
  destruct c as [a b|a|b]; simpl in Ht, Hb.
  - apply not_elem_of_cons in Ht as [Ha Ht]. apply not_elem_of_cons in Hb as [Hb0 Hb].
    rewrite (IH Ht Hb). f_equal. unfold position_score, column_score.
    destruct (Ascii.eqb_spec a b) as [Heq|Hne].
    + rewrite decide_True by exact Heq. reflexivity.
    + rewrite decide_False by exact Hne.
      rewrite decide_False by (intros [?|?]; congruence). reflexivity.
  - apply not_elem_of_cons in Ht as [Ha Ht].
    rewrite (IH Ht Hb). f_equal. unfold position_score, column_score.
    rewrite decide_False by congruence.
    rewrite decide_True by (right; reflexivity). reflexivity.
  - apply not_elem_of_cons in Hb as [Hb0 Hb].
    rewrite (IH Ht Hb). f_equal. unfold position_score, column_score.
    rewrite decide_False by congruence.
    rewrite decide_True by (left; reflexivity). reflexivity.
Qed.

(** X7.  For all inputs the two returned strings display one global
    alignment of [A] and [B], column by column: each column pairs a symbol
    of [A] with a symbol of [B], or a symbol of one string with a gap, and
    the columns read off [A] and [B] in order.  Hence the common length is
    at most [size(A) + size(B)]. *)
Theorem alignment_displays_columns (A B : list ascii) (scr : Scoring) :
  exists al cols,
    alignment_algorithm A B scr = Some al /\
    top cols = A /\ bottom cols = B /\
    seq1 al = render_top cols /\ seq2 al = render_bottom cols /\
    (length (seq1 al) <= length A + length B)%nat.
Proof.
  destruct (alignment_algorithm_renders A B scr)
    as (al & cols & Hrun & _ & [Ht Hb] & H1 & H2).
  exists al, cols. repeat (split; [assumption|]).
  rewrite H1, length_render_top, <- Ht, <- Hb. apply length_cols_le.
Qed.

(** X8.  If no addition can overflow and neither input contains ['-'],
    the score recomputed by [calc_score] from the returned strings is the
    score of the alignment they display, and it never exceeds the corner
    [mat[m][n]] of the returned matrix. *)
Theorem calc_score_at_most_corner (A B : list ascii) (scr : Scoring) :
  no_overflow A B scr -> GAP ∉ A -> GAP ∉ B ->
  exists al cols,
    alignment_algorithm A B scr = Some al /\
    aligns cols A B /\
    seq1 al = render_top cols /\ seq2 al = render_bottom cols /\
    calc_score al scr = alignment_score scr cols /\
    calc_score al scr <= mat_get (score al) (length A) (length B).
Proof.
  intros Hno HA HB.
  destruct (alignment_algorithm_renders A B scr)
    as (al & cols & Hrun & Hmat & [Ht Hb] & H1 & H2).
  exists al, cols. split; [exact Hrun|]. split; [split; assumption|].
  split; [exact H1|]. split; [exact H2|].
  assert (Hscore : calc_score al scr = alignment_score scr cols).
  { destruct al as [s1 s2 mat]. simpl in H1, H2. subst s1 s2.
    rewrite calc_score_sum by (rewrite length_render_top, length_render_bottom; reflexivity).
    rewrite sum_positions_render by (rewrite ?Ht, ?Hb; assumption).
    apply int_wrap_id.
    pose proof (alignment_score_bound scr cols) as Hbound.
    pose proof (score_bound_spec scr) as (HK & _).
    pose proof (length_cols_le cols) as Hlen. rewrite Ht, Hb in Hlen.
    pose proof (scaled_le (score_bound scr) _ _ HK Hlen) as Hle.
    unfold no_overflow in Hno. unfold int_range, INT_MIN, INT_MAX in *. lia. }
  split; [exact Hscore|].
  rewrite Hscore, Hmat, (filled_matrix_correct A B scr Hno) by lia.
  apply nw_score_upper_bound; [lia|lia|].
  rewrite !take_ge by lia. split; assumption.
Qed.

Lemma calc_score_at_most_corner_witness :
  exists al,
    alignment_algorithm (str "A") (str "G") default_scoring = Some al /\
    calc_score al default_scoring <= mat_get (score al) 1 1.
Proof.
  destruct (calc_score_at_most_corner (str "A") (str "G") default_scoring)
    as (al & cols & Hrun & _ & _ & _ & _ & Hle).
  - vm_compute. discriminate.
  - apply gap_free_by_evaluation. reflexivity.
  - apply gap_free_by_evaluation. reflexivity.
  - exists al. split; [exact Hrun|exact Hle].
Defined.

(** ** [calc_score] on its own *)

Lemma position_score_sym (scr : Scoring) (a b : ascii) :
  position_score scr a b = position_score scr b a.
Proof.
  unfold position_score.
  destruct (decide (a = b)) as [Heq|Hne].
  - rewrite (decide_True (P := b = a)) by congruence. reflexivity.
  - rewrite (decide_False (P := b = a)) by congruence.
    destruct (decide (a = GAP \/ b = GAP)) as [Hg|Hg].
    + rewrite (decide_True (P := b = GAP \/ a = GAP)) by tauto. reflexivity.
    + rewrite (decide_False (P := b = GAP \/ a = GAP)) by tauto. reflexivity.
Qed.

Lemma sum_positions_sym (scr : Scoring) (s1 : list ascii) :
  forall s2, sum_positions scr s1 s2 = sum_positions scr s2 s1.
Proof.
  induction s1 as [|a s1 IH]; intros [|b s2]; simpl; try reflexivity.
  rewrite IH, position_score_sym. reflexivity.
Qed.

Lemma int_wrap_add (a b : Z) : int_wrap (int_wrap a + int_wrap b) = int_wrap (a + b).
Proof.
  rewrite int_wrap_add_l, Z.add_comm, int_wrap_add_l. f_equal. lia.
Qed.

(** X9.  The recomputed score does not depend on which of the two
    equal-length aligned strings comes first. *)
Theorem calc_score_symmetric (s1 s2 : list ascii) (mat mat' : matrix) (scr : Scoring) :
  length s1 = length s2 ->
  calc_score (mkAlignment s1 s2 mat) scr = calc_score (mkAlignment s2 s1 mat') scr.
Proof.
  intros Hlen. rewrite !calc_score_sum by congruence.
  rewrite sum_positions_sym. reflexivity.
Qed.

Lemma calc_score_symmetric_witness :
  calc_score (mkAlignment (str "G-AT") (str "GCAA") []) (mkScoring 3 (-1) (-2))
  = calc_score (mkAlignment (str "GCAA") (str "G-AT") []) (mkScoring 3 (-1) (-2)).
Proof.
  apply (calc_score_symmetric (str "G-AT") (str "GCAA") [] [] (mkScoring 3 (-1) (-2))).
  reflexivity.
Defined.

(** X10.  The recomputed score of two alignments written one after the
    other is the [int] sum of their scores. *)
Theorem calc_score_concat (s1 s2 t1 t2 : list ascii) (mat : matrix) (scr : Scoring) :
  length s1 = length s2 -> length t1 = length t2 ->
  calc_score (mkAlignment (s1 ++ t1) (s2 ++ t2) mat) scr
  = int_add (calc_score (mkAlignment s1 s2 mat) scr)
            (calc_score (mkAlignment t1 t2 mat) scr).
Proof.
  intros Hs Ht.
  rewrite !calc_score_sum by (rewrite ?length_app; congruence).
  rewrite sum_positions_app by exact Hs.
  unfold int_add. symmetry. apply int_wrap_add.
Qed.

Lemma calc_score_concat_witness :
  calc_score (mkAlignment (str "G-" ++ str "AT") (str "GC" ++ str "AA") [])
    (mkScoring 3 (-1) (-2))
  = int_add (calc_score (mkAlignment (str "G-") (str "GC") []) (mkScoring 3 (-1) (-2)))
            (calc_score (mkAlignment (str "AT") (str "AA") []) (mkScoring 3 (-1) (-2))).
Proof.
  apply (calc_score_concat (str "G-") (str "GC") (str "AT") (str "AA") []
           (mkScoring 3 (-1) (-2))); reflexivity.
Defined.

(** X11.  Equality of the two symbols is tested before the gap test, so
    a position is scored [match] whenever its symbols are equal, also
    when both are ['-']: the recomputed score of a string against itself
    is its length times [match], reduced to [int]. *)
Theorem calc_score_identical (s : list ascii) (mat : matrix) (scr : Scoring) :
  calc_score (mkAlignment s s mat) scr = int_wrap (Z.of_nat (length s) * match_ scr).
Proof.
  rewrite calc_score_sum by reflexivity. rewrite sum_positions_same. reflexivity.
Qed.

(** ** The traceback cursor *)

Lemma traceback_loop_visits (mat : matrix) (A B : list ascii) (fuel : nat) :
  forall c c', traceback_visits mat A B c ->
    traceback_loop fuel mat A B c = Some c' -> traceback_visits mat A B c'.
Proof.
  induction fuel as [|fuel IH]; intros c c' Hv Hrun; simpl in Hrun.
  - destruct (Nat.ltb_spec 0 (cur_i c)); destruct (Nat.ltb_spec 0 (cur_j c));
      simpl in Hrun; try discriminate; injection Hrun as <-; exact Hv.
  - destruct (Nat.ltb_spec 0 (cur_i c)); destruct (Nat.ltb_spec 0 (cur_j c));
      simpl in Hrun; try (injection Hrun as <-; exact Hv).
    apply (IH (traceback_step mat A B c) c'); [|exact Hrun].
    apply visits_step; assumption.
Qed.

Lemma traceback_step_lengths (mat : matrix) (A B : list ascii) (c : cursor) :
  length (al1 c) = length (al2 c) ->
  length (al1 (traceback_step mat A B c)) = length (al2 (traceback_step mat A B c)).
Proof.
  intros Hlen. unfold traceback_step.
  destruct (traceback_move mat A B (cur_i c) (cur_j c)); simpl;
    rewrite ?length_app; simpl; lia.
Qed.

(** X12.  The traceback never leaves the matrix or the strings: every
    cursor at which the loop guard is evaluated, the final one included,
    has [i <= size(A)] and [j <= size(B)] and accumulators of equal
    length; so whenever the body runs ([i > 0] and [j > 0]) the symbols
    [A[i-1]], [B[j-1]] and the cells read in rows [i-1] and [i], columns
    [j-1] and [j], exist. *)
Theorem traceback_stays_in_bounds (A B : list ascii) (scr : Scoring) :
  let mat := fill_matrix A B scr (generateAlignmentMatrix (length A) (length B) scr) in
  (forall fuel c,
     traceback_loop fuel mat A B (mkCursor (length A) (length B) [] []) = Some c ->
     traceback_visits mat A B c) /\
  (forall c, traceback_visits mat A B c ->
     (cur_i c <= length A)%nat /\ (cur_j c <= length B)%nat /\
     length (al1 c) = length (al2 c) /\
     ((0 < cur_i c)%nat -> (0 < cur_j c)%nat ->
        (cur_i c - 1 < length A)%nat /\ (cur_j c - 1 < length B)%nat /\
        (cur_i c < length mat)%nat /\
        (cur_j c < length (mat !!! (cur_i c - 1)%nat))%nat /\
        (cur_j c < length (mat !!! cur_i c))%nat)).
Proof.
  intros mat. split.
  - intros fuel c Hrun.
    apply (traceback_loop_visits mat A B fuel _ c (visits_start mat A B) Hrun).
  - assert (Hd : mat_dims mat (length A + 1) (length B + 1)).
    { apply fill_matrix_dims.
      apply (generateAlignmentMatrix_boundary (length A) (length B) scr). }
    destruct Hd as [Hrows Hcols].
    assert (Hinv : forall c, traceback_visits mat A B c ->
              (cur_i c <= length A)%nat /\ (cur_j c <= length B)%nat /\
              length (al1 c) = length (al2 c)).
    { intros c Hv. induction Hv as [|c Hv (Hi & Hj & Hlen) Hpi Hpj].
      - simpl. repeat split; lia.
      - pose proof (traceback_step_decreases mat A B c Hpi Hpj) as (_ & Hdi & Hdj).
        simpl in Hdi, Hdj. split; [lia|]. split; [lia|].
        apply traceback_step_lengths. exact Hlen. }
    intros c Hv. destruct (Hinv c Hv) as (Hi & Hj & Hlen).
    split; [exact Hi|]. split; [exact Hj|]. split; [exact Hlen|].
    intros Hpi Hpj.
    split; [lia|]. split; [lia|]. split; [lia|].
    rewrite !Hcols by lia. lia.
Qed.

Lemma traceback_stays_in_bounds_witness :
  let A := str "GAT" in
  let B := str "CA" in
  let scr := mkScoring 2 (-1) (-2) in
  let mat := fill_matrix A B scr (generateAlignmentMatrix 3 2 scr) in
  exists c,
    traceback_loop 5 mat A B (mkCursor 3 2 [] []) = Some c /\
    (cur_i c <= 3)%nat /\ (cur_j c <= 2)%nat /\ length (al1 c) = length (al2 c).
Proof.
  intros A B scr mat.
  destruct (traceback_stays_in_bounds A B scr) as [Hvis Hbounds].
  eexists. split; [vm_compute; reflexivity|].
  match goal with
  | |- (cur_i ?c <= _)%nat /\ _ => destruct (Hbounds c) as (Hi & Hj & Hlen & _)
  end.
  - apply (Hvis 5%nat). vm_compute. reflexivity.
  - split; [exact Hi|]. split; [exact Hj|exact Hlen].
Defined.

(** X13.  When the two symbols under the cursor differ, the step moves to
    the neighbouring cell that holds the largest of the three neighbour
    values (the values themselves, without the score of the step); ties
    are broken diagonal first, then "left" ([i] decremented), then "up"
    ([j] decremented). *)
Theorem traceback_unequal_symbols_follow_largest
    (mat : matrix) (A B : list ascii) (c : cursor) :
  (0 < cur_i c)%nat -> (0 < cur_j c)%nat ->
  char_at A (cur_i c - 1) <> char_at B (cur_j c - 1) ->
  let diag := mat_get mat (cur_i c - 1) (cur_j c - 1) in
  let up := mat_get mat (cur_i c) (cur_j c - 1) in
  let left := mat_get mat (cur_i c - 1) (cur_j c) in
  let c' := traceback_step mat A B c in
  mat_get mat (cur_i c') (cur_j c') = Z.max diag (Z.max up left) /\
  (traceback_move mat A B (cur_i c) (cur_j c) = Diagonal <-> up <= diag /\ left <= diag) /\
  (traceback_move mat A B (cur_i c) (cur_j c) = Left <-> diag < left /\ up <= left) /\
  (traceback_move mat A B (cur_i c) (cur_j c) = Up <-> diag < up /\ left < up).
Proof.
  intros _ _ Hne. simpl. unfold traceback_step, traceback_move.
  destruct (Ascii.eqb_spec (char_at A (cur_i c - 1)) (char_at B (cur_j c - 1)))
    as [Heq|_]; [contradiction|].
  cbn [orb].
  destruct (Z.geb_spec (mat_get mat (cur_i c - 1) (cur_j c - 1))
              (mat_get mat (cur_i c) (cur_j c - 1)));
    destruct (Z.geb_spec (mat_get mat (cur_i c - 1) (cur_j c - 1))
                (mat_get mat (cur_i c - 1) (cur_j c)));
    destruct (Z.geb_spec (mat_get mat (cur_i c - 1) (cur_j c))
                (mat_get mat (cur_i c) (cur_j c - 1)));
    destruct (Z.geb_spec (mat_get mat (cur_i c - 1) (cur_j c))
                (mat_get mat (cur_i c - 1) (cur_j c - 1)));
    destruct (Z.geb_spec (mat_get mat (cur_i c) (cur_j c - 1))
                (mat_get mat (cur_i c - 1) (cur_j c)));
    destruct (Z.geb_spec (mat_get mat (cur_i c) (cur_j c - 1))
                (mat_get mat (cur_i c - 1) (cur_j c - 1)));
    cbn [andb cur_i cur_j]; try lia;
    (split; [lia|]); repeat split; intros; try discriminate; try lia; try reflexivity.
Qed.

(** On ["A"] against ["G"] under the default schema all three neighbours
    of the corner are [0]; the tie goes to the diagonal, which pairs the
    two unequal symbols. *)
Lemma traceback_unequal_symbols_follow_largest_witness :
  let A := str "A" in
  let B := str "G" in
  let mat := fill_matrix A B default_scoring (generateAlignmentMatrix 1 1 default_scoring) in
  traceback_move mat A B 1 1 = Diagonal.
Proof.
  intros A B mat.
  destruct (traceback_unequal_symbols_follow_largest mat A B (mkCursor 1 1 [] []))
    as (_ & Hdiag & _).
  - simpl. lia.
  - simpl. lia.
  - vm_compute. discriminate.
  - apply Hdiag. vm_compute. split; discriminate.
Defined.
